(** * Diffraction through pinholes: the intensity kernel [pindr]

    A shallow embedding of [pindr] from [diffhole.py] and the properties
    of it that the specification states.

    Conventions of the embedding.

    - The program is Python 2: the shebang is [/usr/bin/python], the GUI is
      PyQt4, the string literals carry the [u] prefix, the disabled
      diagnostics are [print] statements, and every division that is meant
      to be a float division is written with a float literal ([/100.0],
      [/50.0], [2.0*np.pi]).  Hence [n / 2] on the Python int [n] is the
      integer floor division, modelled by [Z.div].
    - Python ints are [Z].  Python floats and NumPy [float64] values are
      modelled by the real numbers [R], complex values by pairs of reals.
      The first embedding, [pindr], serves the statements that relate
      values: it computes with exact reals, and rounding, overflow and the
      non-finite values Inf and NaN of IEEE arithmetic are outside of it.
      The second embedding, [Runtime.pindr], serves the statements about
      exceptions and about values that are not numbers: it is the same body
      with the exceptions of the scalar operations, the squares that are
      rounded to 0, the zero divisors of the array division and the empty
      transform.
    - A NumPy array of shape (N,) is a [list]; a two-dimensional array is a
      list of rows.
    - Division of Python scalars raises [ZeroDivisionError] on a zero
      divisor, division of NumPy arrays does not; [np.zeros] raises
      [ValueError] on a negative dimension.  Exceptions are modelled by the
      [result] type.
    - The arguments [k], [u], [v], [R] and [d] are Python scalars, as in
      the signature and in every call of the program: [k] an int or a
      float, the others floats; [np.pi] is a Python float.
    - The transform and its centering are library routines, modelled by
      their documented formula and index order.  [fft2] is the transform of
      an array that is not empty: every statement that [pindr] returns a
      grid is about [npx >= 1], and the empty array of [npx = 0], on which
      the library raises, is in [Runtime.fft2]. *)

From Stdlib Require Import Reals ZArith List Lia Lra.
Import ListNotations.

Local Open Scope R_scope.

(** ** Exceptions *)

Inductive PyError : Type :=
| ZeroDivisionError
| ValueError
| OverflowError.

Inductive result (A : Type) : Type :=
| Ok (a : A)
| Raise (e : PyError).

Arguments Ok {A} a.
Arguments Raise {A} e.

Definition bind {A B : Type} (m : result A) (f : A -> result B) : result B :=
  match m with
  | Ok a => f a
  | Raise e => Raise e
  end.

Notation "x <- m ;; f" := (bind m (fun x => f))
  (at level 61, m at next level, right associativity).

(** ** Complex numbers *)

Record C : Type := mkC { re : R; im : R }.

Definition C0 : C := mkC 0 0.
Definition Cone : C := mkC 1 0.
(** [1j] *)
Definition Ci : C := mkC 0 1.
(** Promotion of a real operand in mixed arithmetic. *)
Definition RtoC (x : R) : C := mkC x 0.

Definition Cadd (z w : C) : C := mkC (re z + re w) (im z + im w).
Definition Copp (z : C) : C := mkC (- re z) (- im z).
Definition Cmul (z w : C) : C :=
  mkC (re z * re w - im z * im w) (re z * im w + im z * re w).
Definition Cdiv (z w : C) : C :=
  let m := re w * re w + im w * im w in
  mkC ((re z * re w + im z * im w) / m) ((im z * re w - re z * im w) / m).
(** [np.exp] on a complex argument *)
Definition Cexp (z : C) : C :=
  mkC (exp (re z) * cos (im z)) (exp (re z) * sin (im z)).
(** [np.abs] on a complex argument *)
Definition Cabs (z : C) : R := sqrt (re z * re z + im z * im z).

(** A point of the unit circle. *)
Definition cis (t : R) : C := mkC (cos t) (sin t).

(** Division of Python scalars: a zero divisor raises. *)
Definition py_div (a b : R) : result R :=
  if Req_dec_T b 0 then Raise ZeroDivisionError else Ok (a / b).

Definition py_cdiv (z w : C) : result C :=
  if Req_dec_T (re w) 0 then
    if Req_dec_T (im w) 0 then Raise ZeroDivisionError else Ok (Cdiv z w)
  else Ok (Cdiv z w).

(** ** Arrays *)

Definition matrix (A : Type) : Type := list (list A).

(** [np.arange(a, b)] on ints *)
Definition arange (a b : Z) : list Z :=
  map (fun i => (a + Z.of_nat i)%Z) (seq 0 (Z.to_nat (b - a))).

(** [range(n)] *)
Definition range (n : Z) : list Z := arange 0 n.

(** [np.zeros((r, c))] *)
Definition zeros (r c : nat) : matrix C := repeat (repeat C0 c) r.

(** Broadcasting of a column [X = x[:, np.newaxis]] of shape (N,1) against a
    row [Y = y[np.newaxis, :]] of shape (1,M): entry [a][b] of the result is
    computed from [x[a]] and [y[b]]. *)
Definition outer {A B D : Type} (f : A -> B -> D) (col : list A) (row : list B)
  : matrix D :=
  map (fun X => map (fun Y => f X Y) row) col.

Definition mat_map {A B : Type} (f : A -> B) (M : matrix A) : matrix B :=
  map (map f) M.

Fixpoint zip_with {A B D : Type} (f : A -> B -> D) (l : list A) (l' : list B)
  : list D :=
  match l, l' with
  | a :: t, b :: t' => f a b :: zip_with f t t'
  | _, _ => []
  end.

(** Elementwise operation on two arrays; in [pindr] the two always have the
    same shape. *)
Definition mat_zip {A B D : Type} (f : A -> B -> D) (M : matrix A) (M' : matrix B)
  : matrix D :=
  zip_with (zip_with f) M M'.

(** [A[a][b]] *)
Definition at2 (A : matrix C) (a b : nat) : C := nth b (nth a A []) C0.
Definition rat2 (A : matrix R) (a b : nat) : R := nth b (nth a A []) 0.

(** Sum of [f 0], ..., [f (n-1)], added in this order. *)
Fixpoint Csum_n (f : nat -> C) (n : nat) : C :=
  match n with
  | O => C0
  | S m => Cadd (Csum_n f m) (f m)
  end.

(** ** The two library routines *)

(** [fftpack.fft2]: the two-dimensional discrete Fourier transform,
    [y[p,q] = sum_a sum_b x[a,b] * exp(-2*pi*1j*(p*a/n1 + q*b/n2))]. *)
Definition fft2 (A : matrix C) : matrix C :=
  let n1 := length A in
  let n2 := length (hd [] A) in
  map (fun p =>
    map (fun q =>
      Csum_n (fun a =>
        Csum_n (fun b =>
          Cmul (at2 A a b)
               (Cexp (Cmul (RtoC (-2 * PI)) (Cmul Ci
                  (RtoC (INR p * INR a / INR n1 + INR q * INR b / INR n2))))))
          n2) n1)
      (seq 0 n2))
    (seq 0 n1).

(** [fftshift] along one axis of length [n]: with [p2 = (n+1)//2] the
    elements are taken in the order [p2, ..., n-1, 0, ..., p2-1]. *)
Definition shift1 {A : Type} (l : list A) : list A :=
  let p2 := Nat.div (length l + 1) 2 in
  skipn p2 l ++ firstn p2 l.

(** [fftpack.fftshift] on a two-dimensional array: both axes are shifted. *)
Definition fftshift {A : Type} (M : matrix A) : matrix A :=
  shift1 (map shift1 M).

(** ** [pindr] *)

Section Pindr.

Variables (k u v : R) (npx nholes : Z) (R0 d : R).

(** The locals [n], [I], [x] and [y]. *)
Definition pindr_n : Z := (npx + 1)%Z.
Definition pindr_I : list Z := arange 1 pindr_n.
Definition pindr_x : list Z := map (fun i => (i - pindr_n / 2)%Z) pindr_I.
Definition pindr_y : list Z := map (fun i => (pindr_n / 2 - i)%Z) pindr_I.

(** One pass of the body of the loop over the pinholes; [lam] is the
    wavelength and [M] the mask accumulated so far. *)
Definition hole (lam : R) (M : matrix C) (i : Z) : result (matrix C) :=
  t <- py_div (IZR i * 2 * PI) (IZR nholes) ;;
  let xi := R0 * cos t in
  let yi := R0 * sin t in
  let ri := outer (fun X Y => sqrt ((IZR X - xi) ^ 2 + (IZR Y - yi) ^ 2 + d ^ 2))
                  pindr_x pindr_y in
  c <- py_cdiv (Copp Ci) (RtoC lam) ;;
  Ok (mat_zip Cadd M
        (mat_zip Cdiv
           (mat_map (fun r => Cmul c (Cexp (Cmul (Cmul Ci (RtoC k)) (RtoC r)))) ri)
           (mat_map RtoC ri))).

(** [for i in range(nholes): ...] *)
Fixpoint for_holes (lam : R) (M : matrix C) (idx : list Z) : result (matrix C) :=
  match idx with
  | [] => Ok M
  | i :: rest => M' <- hole lam M i ;; for_holes lam M' rest
  end.

(** The shift phase, the transform, its centering and the magnitude. *)
Definition image_of_mask (M : matrix C) : matrix R :=
  let xy := outer (fun X Y => Cexp (Cmul Ci (RtoC (u * IZR X + v * IZR Y))))
                  pindr_x pindr_y in
  let D1 := fft2 (mat_zip Cmul xy M) in
  let D2 := fftshift D1 in
  let abs_image := mat_map Cabs D2 in
  abs_image.

(** The body: the wavelength [lam = 2.0*np.pi/k], the mask [M] of zeros,
    the loop, and the image of the mask. *)
Definition pindr : result (matrix R) :=
  lam <- py_div (2 * PI) k ;;
  if (pindr_n - 1 <? 0)%Z then Raise ValueError else
  let M0 := zeros (Z.to_nat (pindr_n - 1)) (Z.to_nat (pindr_n - 1)) in
  M <- for_holes lam M0 (range nholes) ;;
  Ok (image_of_mask M).

End Pindr.

(** The signature [def pindr(k=350, u=1.0, v=1.0, npx=600, nholes=8, R=2.0,
    d=0.1)]: the default values, and a call in which every argument may be
    left out. *)
Record params : Type := mkParams {
  p_k : R; p_u : R; p_v : R; p_npx : Z; p_nholes : Z; p_R : R; p_d : R
}.

Definition pindr_defaults : params :=
  {| p_k := 350; p_u := 1; p_v := 1; p_npx := 600; p_nholes := 8;
     p_R := 2; p_d := 1 / 10 |}.

Definition default {A : Type} (dflt : A) (arg : option A) : A :=
  match arg with
  | Some a => a
  | None => dflt
  end.

Definition pindr_kw (k u v : option R) (npx nholes : option Z) (R0 d : option R)
  : result (matrix R) :=
  pindr (default (p_k pindr_defaults) k)
        (default (p_u pindr_defaults) u)
        (default (p_v pindr_defaults) v)
        (default (p_npx pindr_defaults) npx)
        (default (p_nholes pindr_defaults) nholes)
        (default (p_R pindr_defaults) R0)
        (default (p_d pindr_defaults) d).

(** ** Shapes and entries of arrays *)

Definition shape {A : Type} (M : matrix A) (r c : nat) : Prop :=
  length M = r /\ Forall (fun row => length row = c) M.

Definition entry {A : Type} (dflt : A) (M : matrix A) (a b : nat) : A :=
  nth b (nth a M []) dflt.


(** ** Entries in closed form

    The value of each intermediate array of [pindr] at the indices [a], [b],
    used to reason about single entries. *)

Section Entries.

Variables (k u v : R) (npx nholes : Z) (R0 d : R).

(** [x[a]] and [y[b]] *)
Definition coord_x (a : nat) : Z := (1 + Z.of_nat a - (npx + 1) / 2)%Z.
Definition coord_y (b : nat) : Z := ((npx + 1) / 2 - (1 + Z.of_nat b))%Z.

(** [ri[a][b]] in the pass for pinhole [i] *)
Definition ri_at (i a b : nat) : R :=
  let t := IZR (0 + Z.of_nat i) * 2 * PI / IZR nholes in
  sqrt ((IZR (coord_x a) - R0 * cos t) ^ 2 + (IZR (coord_y b) - R0 * sin t) ^ 2
        + d ^ 2).

(** The entry added to [M[a][b]] in the pass for pinhole [i] *)
Definition term_at (i a b : nat) : C :=
  Cdiv (Cmul (Cdiv (Copp Ci) (RtoC (2 * PI / k)))
             (Cexp (Cmul (Cmul Ci (RtoC k)) (RtoC (ri_at i a b)))))
       (RtoC (ri_at i a b)).

(** The array added to [M] in the pass for pinhole [i] *)
Definition hole_term (lam : R) (i : Z) : matrix C :=
  let t := IZR i * 2 * PI / IZR nholes in
  let ri := outer (fun X Y => sqrt ((IZR X - R0 * cos t) ^ 2
                                    + (IZR Y - R0 * sin t) ^ 2 + d ^ 2))
                  (pindr_x npx) (pindr_y npx) in
  mat_zip Cdiv
    (mat_map (fun r => Cmul (Cdiv (Copp Ci) (RtoC lam))
                            (Cexp (Cmul (Cmul Ci (RtoC k)) (RtoC r)))) ri)
    (mat_map RtoC ri).

Definition mask_at (a b : nat) : C :=
  Csum_n (fun i => term_at i a b) (Z.to_nat nholes).

Definition field_at (a b : nat) : C :=
  Cmul (Cexp (Cmul Ci (RtoC (u * IZR (coord_x a) + v * IZR (coord_y b)))))
       (mask_at a b).

End Entries.

(** The transform of an [n1] by [n2] array given by its entries. *)
Definition dft2_at (n1 n2 : nat) (f : nat -> nat -> C) (p q : nat) : C :=
  Csum_n (fun a =>
    Csum_n (fun b =>
      Cmul (f a b)
           (Cexp (Cmul (RtoC (-2 * PI)) (Cmul Ci
              (RtoC (INR p * INR a / INR n1 + INR q * INR b / INR n2))))))
      n2) n1.

(** ** The reference definition of the specification

    The output as the specification words it: sources on a circle, the
    Fresnel-Kirchhoff kernel, the shift phase, the discrete Fourier
    transform, and the relocation of every frequency bin [k] to the
    position [(k + N/2) mod N]. *)

Section Reference.

Variables (k u v : R) (npx nholes : Z) (R0 d : R).

Definition ref_wavelength : R := 2 * PI / k.

Definition ref_angle (i : nat) : R := INR i * (2 * PI) / IZR nholes.

Definition ref_distance (i : nat) (X Y : R) : R :=
  let xi := R0 * cos (ref_angle i) in
  let yi := R0 * sin (ref_angle i) in
  sqrt ((X - xi) * (X - xi) + (Y - yi) * (Y - yi) + d * d).

(** [(-i/lambda) * exp(i*k*r) / r] *)
Definition ref_kernel (r : R) : C :=
  Cdiv (Cmul (Cdiv (Copp Ci) (RtoC ref_wavelength)) (Cexp (Cmul Ci (RtoC (k * r)))))
       (RtoC r).

Definition ref_mask (X Y : R) : C :=
  Csum_n (fun i => ref_kernel (ref_distance i X Y)) (Z.to_nat nholes).

Definition ref_shift_phase (X Y : R) : C := Cexp (Cmul Ci (RtoC (u * X + v * Y))).

(** The field at the grid point of the pixel indices [a+1], [b+1]. *)
Definition ref_field (a b : nat) : C :=
  let X := IZR (coord_x npx a) in
  let Y := IZR (coord_y npx b) in
  Cmul (ref_shift_phase X Y) (ref_mask X Y).

(** The frequency bin [(k1, k2)] of the transform of the field. *)
Definition ref_bin (k1 k2 : nat) : C :=
  let N := Z.to_nat npx in
  Csum_n (fun a =>
    Csum_n (fun b =>
      Cmul (ref_field a b)
           (Cexp (Cmul (Copp Ci)
              (RtoC (2 * PI * (INR k1 * INR a + INR k2 * INR b) / INR N)))))
      N) N.

Definition is_reference_output (g : matrix R) : Prop :=
  let N := Z.to_nat npx in
  shape g N N /\
  forall k1 k2 : nat, (k1 < N)%nat -> (k2 < N)%nat ->
    rat2 g ((k1 + N / 2) mod N) ((k2 + N / 2) mod N) = Cabs (ref_bin k1 k2).

End Reference.

(** Index reflection through the centre of an [N] by [N] grid. *)
Definition reflect (N a : nat) : nat := (N - 1 - a)%nat.

(** ** Statements about results *)

(** A property of the value of a call that returned. *)
Definition when_returned {A : Type} (r : result A) (P : A -> Prop) : Prop :=
  match r with
  | Ok a => P a
  | Raise _ => True
  end.

(** The [r] by [c] grid of real zeros. *)
Definition rzeros (r c : nat) : matrix R := repeat (repeat 0 c) r.

(** The grid as real division would center it: pixel index [i] at
    [i - (npx+1)/2] and at [(npx+1)/2 - i]. *)
Definition centered_by_real_division (npx : Z) : Prop :=
  forall i : Z, (1 <= i <= npx)%Z ->
    IZR (nth (Z.to_nat (i - 1)) (pindr_x npx) 0%Z) = IZR i - (IZR npx + 1) / 2 /\
    IZR (nth (Z.to_nat (i - 1)) (pindr_y npx) 0%Z) = (IZR npx + 1) / 2 - IZR i.

(** ** The window and its callbacks

    The part of the widget [Example] that the computation reads and
    writes: the values of the five sliders and of the spin box, and the
    two images [p100] and [p600].  Labels, palette and the drawing calls of
    the toolkit are left out.  A callback runs after the toolkit has stored
    the new value in the widget, so it leaves the slider values as they
    are; an exception of [pindr] ends the callback. *)

Record Example : Type := mkExample {
  sk : Z; su : Z; sv : Z; sd : Z; sr : Z; hc : Z;
  p100 : matrix R;
  p600 : matrix R
}.

Definition with_p100 (self : Example) (p : matrix R) : Example :=
  mkExample (sk self) (su self) (sv self) (sd self) (sr self) (hc self)
            p (p600 self).

Definition with_p600 (self : Example) (p : matrix R) : Example :=
  mkExample (sk self) (su self) (sv self) (sd self) (sr self) (hc self)
            (p100 self) p.

(** The ranges given to [setRange]. *)
Definition in_range (self : Example) : Prop :=
  (1 <= sk self <= 1000)%Z /\ (0 <= su self <= 100)%Z /\ (0 <= sv self <= 100)%Z
  /\ (1 <= sd self <= 1000)%Z /\ (1 <= sr self <= 100)%Z /\ (1 <= hc self <= 25)%Z.

(** [initUI]: the values given to [setValue], the preview [pindr(npx=100)]
    and the image [pindr()]. *)
Definition initUI : result Example :=
  p <- pindr_kw None None None (Some 100%Z) None None None ;;
  q <- pindr_kw None None None None None None None ;;
  Ok (mkExample 350 16 16 10 20 8 p q).

(** The argument tuples of the calls of [pindr] in the callbacks and in
    [plotIt], in the order [k], [u], [v], [npx], [nholes], [R], [d]. *)
Definition args_changeValue_k (self : Example) (value : Z) : params :=
  mkParams (IZR value) (IZR (su self) * PI / 50) (IZR (sv self) * PI / 50)
           100 (hc self) (IZR (sr self) / 10) (IZR (sd self) / 100).

Definition args_changeValue_u (self : Example) (value : Z) : params :=
  mkParams (IZR (sk self)) (IZR value * PI / 50) (IZR (sv self) * PI / 50)
           100 (hc self) (IZR (sr self) / 10) (IZR (sd self) / 100).

Definition args_changeValue_v (self : Example) (value : Z) : params :=
  mkParams (IZR (sk self)) (IZR (su self) * PI / 50) (IZR value * PI / 50)
           100 (hc self) (IZR (sr self) / 10) (IZR (sd self) / 100).

Definition args_changeValue_d (self : Example) (value : Z) : params :=
  mkParams (IZR (sk self)) (IZR (su self) * PI / 50) (IZR (su self) * PI / 50)
           100 (hc self) (IZR (sr self) / 10) (IZR value / 100).

Definition args_changeValue_r (self : Example) (value : Z) : params :=
  mkParams (IZR (sk self)) (IZR (su self) * PI / 50) (IZR (su self) * PI / 50)
           100 (hc self) (IZR value / 10) (IZR value / 100).

Definition args_changeValue_holes (self : Example) (value : Z) : params :=
  mkParams (IZR (sk self)) (IZR (su self) * PI / 50) (IZR (sv self) * PI / 50)
           100 value (IZR (sr self) / 10) (IZR (sd self) / 100).

Definition args_plotIt (self : Example) : params :=
  mkParams (IZR (sk self)) (IZR (su self) * PI / 50) (IZR (sv self) * PI / 50)
           600 (hc self) (IZR (sr self) / 10) (IZR (sd self) / 100).

Definition pindr_args (p : params) : result (matrix R) :=
  pindr (p_k p) (p_u p) (p_v p) (p_npx p) (p_nholes p) (p_R p) (p_d p).

Definition changeValue_k (self : Example) (value : Z) : result Example :=
  p <- pindr_args (args_changeValue_k self value) ;; Ok (with_p100 self p).

Definition changeValue_u (self : Example) (value : Z) : result Example :=
  p <- pindr_args (args_changeValue_u self value) ;; Ok (with_p100 self p).

Definition changeValue_v (self : Example) (value : Z) : result Example :=
  p <- pindr_args (args_changeValue_v self value) ;; Ok (with_p100 self p).

Definition changeValue_d (self : Example) (value : Z) : result Example :=
  p <- pindr_args (args_changeValue_d self value) ;; Ok (with_p100 self p).

Definition changeValue_r (self : Example) (value : Z) : result Example :=
  p <- pindr_args (args_changeValue_r self value) ;; Ok (with_p100 self p).

Definition changeValue_holes (self : Example) (value : Z) : result Example :=
  p <- pindr_args (args_changeValue_holes self value) ;; Ok (with_p100 self p).

Definition plotIt (self : Example) : result Example :=
  p <- pindr_args (args_plotIt self) ;; Ok (with_p600 self p).

(** The sizes of the two images. *)
Definition images_sized (self : Example) : Prop :=
  shape (p100 self) 100 100 /\ shape (p600 self) 600 600.

(** The argument tuple at another image size. *)
Definition at_size (npx : Z) (p : params) : params :=
  mkParams (p_k p) (p_u p) (p_v p) npx (p_nholes p) (p_R p) (p_d p).

(** Reflection of one index of a grid. *)
Definition mirror_cols (N : nat) (g : matrix R) : Prop :=
  forall a b : nat, (a < N)%nat -> (b < N)%nat ->
    rat2 g a b = rat2 g a (reflect N b).

Definition mirror_rows (N : nat) (g : matrix R) : Prop :=
  forall a b : nat, (a < N)%nat -> (b < N)%nat ->
    rat2 g a b = rat2 g (reflect N a) b.

(** A callback that returned: the slider values are as before, and the
    state is again in range with images of the right sizes. *)
Definition same_sliders (self self' : Example) : Prop :=
  sk self' = sk self /\ su self' = su self /\ sv self' = sv self
  /\ sd self' = sd self /\ sr self' = sr self /\ hc self' = hc self.

Definition keeps_window (self : Example) (r : result Example) : Prop :=
  exists self', r = Ok self' /\ same_sliders self self'
                /\ in_range self' /\ images_sized self'.

(** ** Reflection through the centre index

    The centered transform holds the frequency 0 at the index [N/2] of each
    axis, the centre index of the grid.  The reflection of the index [a]
    through it is [2*(N/2) - a], taken modulo [N] as the frequencies are:
    for an even [N] the index 0 holds the frequency [-N/2], which is its own
    opposite. *)
Definition centre_reflect (N a : nat) : nat := ((2 * (N / 2) + N - a) mod N)%nat.

Definition centre_symmetric (N : nat) (g : matrix R) : Prop :=
  forall a b : nat, (a < N)%nat -> (b < N)%nat ->
    rat2 g a b = rat2 g (centre_reflect N a) (centre_reflect N b).

(** The index of the grid point opposite to the grid point of index [a]:
    [x[opposite_index a] = - x[a]].  For an even [npx] the coordinates run
    from [1 - npx/2] to [npx/2], and the last index, whose coordinate
    [npx/2] has no opposite on the grid, stays. *)
Definition opposite_index (npx : Z) (a : nat) : nat :=
  let N := Z.to_nat npx in
  ((N - 1 - a + (if Z.even npx then N - 1 else 0)) mod N)%nat.

(** One pinhole off the origin on the 3 by 3 grid: a radius, a screen
    distance and a wavenumber for which the radial distances of the grid
    points are 49, 85, 125, 143, 155 and 193 times [1 / sqrt 13224], and the
    phase [k * r] of each is an odd multiple of [PI / 4]. *)
Definition R551 : R := 175 / 551.
Definition d551 : R := sqrt (587951 / 7286424).
Definition k551 : R := PI / 4 * sqrt 13224.

(** ** The floating-point run time

    [pindr] above computes with real numbers.  The module [Runtime] is the
    same body, statement by statement, with what the run time does where
    the arithmetic leaves the finite floats:

    - a Python scalar operation raises.  [2.0*np.pi/k] raises
      [ZeroDivisionError] for [k = 0] and [OverflowError] for an int [k]
      too large to convert to a float; [d**2] on the Python float [d]
      raises [OverflowError] when the square is not finite.  The divisor
      [nholes] of [i*2.0*np.pi/nholes] is an int for which [range] has
      built its list, which converts to a float; float multiplication and
      division do not raise on overflow;
    - a square too small to be represented is 0;
    - a NumPy array operation does not raise (with the error handling that
      NumPy starts with, which prints a warning): the quotient by a zero
      divisor is not a number, and neither is any value computed from it.
      An array entry is [Some z] for a finite value [z] and [None] for a
      value that is not a number;
    - [fftpack.fft2] raises [ValueError] on an empty array.

    Finite values are kept as real numbers, as above.  Rounding of finite
    values, the infinities that array operations give on overflow, and the
    limits of memory (for the arrays and for the list of [range]) are
    outside of this model: the statements that a value is a number carry
    bounds that keep the array operations far from overflow. *)

Module Runtime.

(** The largest finite float is [2^1024 - 2^971]; a value of magnitude
    [2^1024 - 2^970] or more is rounded to an infinity. *)
Definition float_limit : R := 2 ^ 1024 - 2 ^ 970.

Definition exceeds_floats (x : R) : Prop := float_limit <= Rabs x.

Definition exceeds_floats_dec (x : R) : {exceeds_floats x} + {~ exceeds_floats x} :=
  Rle_dec float_limit (Rabs x).

(** The smallest positive float is [2^-1074]; a square of at most [2^-1075]
    is rounded to 0. *)
Definition float_tiny : R := / 2 ^ 1075.

Definition fsq (x : R) : R := if Rle_dec (x * x) float_tiny then 0 else x * x.

(** [a / b] on a Python float [a] and a Python int [b], which is converted
    to a float first. *)
Definition py_div_int (a b : R) : result R :=
  if exceeds_floats_dec b then Raise OverflowError else py_div a b.

(** [d ** 2] on a Python float [d]. *)
Definition py_pow2 (d : R) : result R :=
  if exceeds_floats_dec (d * d) then Raise OverflowError else Ok (fsq d).

(** Arithmetic on array entries. *)
Definition oadd (z w : option C) : option C :=
  match z, w with
  | Some a, Some b => Some (Cadd a b)
  | _, _ => None
  end.

Definition omul (z w : option C) : option C :=
  match z, w with
  | Some a, Some b => Some (Cmul a b)
  | _, _ => None
  end.

(** The quotient of a finite complex entry by a finite real entry. *)
Definition np_divide (z : C) (r : R) : option C :=
  if Req_dec_T r 0 then None else Some (Cdiv z (RtoC r)).

Fixpoint Osum_n (f : nat -> option C) (n : nat) : option C :=
  match n with
  | O => Some C0
  | S m => oadd (Osum_n f m) (f m)
  end.

Definition oat2 (A : matrix (option C)) (a b : nat) : option C :=
  nth b (nth a A []) (Some C0).

(** [fftpack.fft2] *)
Definition fft2 (A : matrix (option C)) : result (matrix (option C)) :=
  let n1 := length A in
  let n2 := length (hd [] A) in
  if orb (Nat.eqb n1 0) (Nat.eqb n2 0) then Raise ValueError else
  Ok (map (fun p =>
        map (fun q =>
          Osum_n (fun a =>
            Osum_n (fun b =>
              omul (oat2 A a b)
                   (Some (Cexp (Cmul (RtoC (-2 * PI)) (Cmul Ci
                      (RtoC (INR p * INR a / INR n1 + INR q * INR b / INR n2)))))))
              n2) n1)
          (seq 0 n2))
        (seq 0 n1)).

Section Pindr.

Variables (k u v : R) (npx nholes : Z) (R0 d : R).

(** One pass of the body of the loop. *)
Definition hole (lam : R) (M : matrix (option C)) (i : Z)
  : result (matrix (option C)) :=
  t <- py_div (IZR i * 2 * PI) (IZR nholes) ;;
  let xi := R0 * cos t in
  let yi := R0 * sin t in
  d2 <- py_pow2 d ;;
  let ri := outer (fun X Y => sqrt (fsq (IZR X - xi) + fsq (IZR Y - yi) + d2))
                  (pindr_x npx) (pindr_y npx) in
  c <- py_cdiv (Copp Ci) (RtoC lam) ;;
  Ok (mat_zip oadd M
        (mat_zip np_divide
           (mat_map (fun r => Cmul c (Cexp (Cmul (Cmul Ci (RtoC k)) (RtoC r)))) ri)
           ri)).

Fixpoint for_holes (lam : R) (M : matrix (option C)) (idx : list Z)
  : result (matrix (option C)) :=
  match idx with
  | [] => Ok M
  | i :: rest => M' <- hole lam M i ;; for_holes lam M' rest
  end.

Definition image_of_mask (M : matrix (option C)) : result (matrix (option R)) :=
  let xy := outer (fun X Y => Cexp (Cmul Ci (RtoC (u * IZR X + v * IZR Y))))
                  (pindr_x npx) (pindr_y npx) in
  D1 <- fft2 (mat_zip (fun z m => omul (Some z) m) xy M) ;;
  let D2 := fftshift D1 in
  let abs_image := mat_map (option_map Cabs) D2 in
  Ok abs_image.

Definition pindr : result (matrix (option R)) :=
  lam <- py_div_int (2 * PI) k ;;
  if (pindr_n npx - 1 <? 0)%Z then Raise ValueError else
  let M0 := mat_map Some
              (zeros (Z.to_nat (pindr_n npx - 1)) (Z.to_nat (pindr_n npx - 1))) in
  M <- for_holes lam M0 (range nholes) ;;
  image_of_mask M.

(** [ri[a][b]] in the pass for pinhole [i], and the array added to [M] in
    that pass. *)
Definition ri_at (i : Z) (a b : nat) : R :=
  let t := IZR i * 2 * PI / IZR nholes in
  sqrt (fsq (IZR (coord_x npx a) - R0 * cos t)
        + fsq (IZR (coord_y npx b) - R0 * sin t) + fsq d).

Definition hole_term (lam : R) (i : Z) : matrix (option C) :=
  let t := IZR i * 2 * PI / IZR nholes in
  let ri := outer (fun X Y => sqrt (fsq (IZR X - R0 * cos t)
                                    + fsq (IZR Y - R0 * sin t) + fsq d))
                  (pindr_x npx) (pindr_y npx) in
  mat_zip np_divide
    (mat_map (fun r => Cmul (Cdiv (Copp Ci) (RtoC lam))
                            (Cexp (Cmul (Cmul Ci (RtoC k)) (RtoC r)))) ri)
    ri.

End Pindr.

(** The array [ri] of the pass in which the angle of the pinhole is [t] and
    the value of [d**2] is [d2]. *)
Definition ri_array (npx : Z) (R0 d2 t : R) : matrix R :=
  outer (fun X Y => sqrt (fsq (IZR X - R0 * cos t) + fsq (IZR Y - R0 * sin t) + d2))
        (pindr_x npx) (pindr_y npx).

End Runtime.

(** ** Statements about grids with entries that may not be numbers *)

Definition every_entry {A : Type} (P : A -> Prop) (g : matrix A) : Prop :=
  Forall (Forall P) g.

(** An entry that is a number is not negative. *)
Definition nan_or_nonneg (x : option R) : Prop :=
  match x with
  | Some r => 0 <= r
  | None => True
  end.

(** An entry is a number, and not negative. *)
Definition finite_nonneg (x : option R) : Prop :=
  match x with
  | Some r => 0 <= r
  | None => False
  end.

(** [g[a][b]] is not a number. *)
Definition nan_at (g : matrix (option R)) (a b : nat) : Prop :=
  entry (Some 0) g a b = None.

(** Arguments far from the ends of the range of the floats. *)
Definition moderate (x : R) : Prop := Rabs x <= 2 ^ 100.
Definition not_tiny (x : R) : Prop := / 2 ^ 100 <= Rabs x.

(** No square of a difference between a grid coordinate and a coordinate
    of a pinhole is rounded to 0 unless it is 0. *)
Definition squares_exact (nholes : Z) (R0 : R) : Prop :=
  forall X i : Z,
    let t := IZR i * 2 * PI / IZR nholes in
    Runtime.fsq (IZR X - R0 * cos t) = (IZR X - R0 * cos t) ^ 2
    /\ Runtime.fsq (IZR X - R0 * sin t) = (IZR X - R0 * sin t) ^ 2.

Lemma at2_entry (M : matrix C) a b : at2 M a b = entry C0 M a b.
Proof. reflexivity. Qed.

Lemma rat2_entry (M : matrix R) a b : rat2 M a b = entry 0 M a b.
Proof. reflexivity. Qed.

Lemma shape_row {A : Type} (M : matrix A) r c a :
  shape M r c -> (a < r)%nat -> length (nth a M []) = c.
Proof.
  intros [Hl Hall] Ha.
  rewrite Forall_forall in Hall. apply Hall. apply nth_In. lia.
Qed.

Lemma zip_with_length {A B D : Type} (f : A -> B -> D) l l' :
  length (zip_with f l l') = Nat.min (length l) (length l').
Proof.
  revert l'. induction l as [|a t IH]; intros [|b t']; simpl; auto.
Qed.

Lemma zip_with_nth {A B D : Type} (f : A -> B -> D) l l' i da db dd :
  (i < length l)%nat -> (i < length l')%nat ->
  nth i (zip_with f l l') dd = f (nth i l da) (nth i l' db).
Proof.
  revert l' i. induction l as [|a t IH]; intros [|b t'] [|i]; simpl; intros;
    try lia; auto.
  apply IH; lia.
Qed.

Lemma shape_zeros r c : shape (zeros r c) r c.
Proof.
  split; unfold zeros.
  - apply repeat_length.
  - apply Forall_forall. intros row Hin. apply repeat_spec in Hin. subst.
    apply repeat_length.
Qed.

Lemma shape_outer {A B D : Type} (f : A -> B -> D) col row :
  shape (outer f col row) (length col) (length row).
Proof.
  split; unfold outer.
  - apply length_map.
  - apply Forall_forall. intros r Hin. apply in_map_iff in Hin.
    destruct Hin as [X [<- _]]. apply length_map.
Qed.

Lemma shape_mat_map {A B : Type} (f : A -> B) M r c :
  shape M r c -> shape (mat_map f M) r c.
Proof.
  intros [Hl Hall]. split; unfold mat_map.
  - now rewrite length_map.
  - apply Forall_forall. intros row Hin. apply in_map_iff in Hin.
    destruct Hin as [row' [<- Hin]]. rewrite length_map.
    rewrite Forall_forall in Hall. now apply Hall.
Qed.

Lemma shape_mat_zip {A B D : Type} (f : A -> B -> D) M M' r c :
  shape M r c -> shape M' r c -> shape (mat_zip f M M') r c.
Proof.
  unfold shape, mat_zip. revert M' r.
  induction M as [|row t IH]; intros [|row' t'] r [Hl Hall] [Hl' Hall']; simpl in *;
    try (split; [lia | constructor]).
  inversion Hall as [|? ? Hrow Ht]; inversion Hall' as [|? ? Hrow' Ht']; subst.
  assert (Hlen : length t' = length t) by lia.
  destruct (IH t' (length t) (conj eq_refl Ht) (conj Hlen Ht')) as [IHl IHall].
  split.
  - now rewrite IHl.
  - constructor; auto. rewrite zip_with_length. lia.
Qed.

Lemma entry_zeros r c a b : entry C0 (zeros r c) a b = C0.
Proof.
  unfold entry, zeros.
  destruct (Nat.lt_ge_cases a r) as [Ha|Ha].
  - rewrite nth_repeat_lt by lia.
    destruct (Nat.lt_ge_cases b c) as [Hb|Hb].
    + now rewrite nth_repeat_lt.
    + apply nth_overflow. now rewrite repeat_length.
  - rewrite (nth_overflow (repeat _ _)) by now rewrite repeat_length.
    now destruct b.
Qed.

Lemma nth_map_lt {A B : Type} (f : A -> B) l i da db :
  (i < length l)%nat -> nth i (map f l) db = f (nth i l da).
Proof.
  intros Hi. rewrite (nth_indep _ db (f da)) by now rewrite length_map.
  apply map_nth.
Qed.

Lemma entry_outer {A B D : Type} (f : A -> B -> D) col row a b da db dd :
  (a < length col)%nat -> (b < length row)%nat ->
  entry dd (outer f col row) a b = f (nth a col da) (nth b row db).
Proof.
  intros Ha Hb. unfold entry, outer.
  rewrite (nth_map_lt _ col a da) by assumption.
  now rewrite (nth_map_lt _ row b db).
Qed.

Lemma entry_mat_map {A B : Type} (f : A -> B) M r c a b da db :
  shape M r c -> (a < r)%nat -> (b < c)%nat ->
  entry db (mat_map f M) a b = f (entry da M a b).
Proof.
  intros HM Ha Hb. unfold entry, mat_map.
  pose proof (shape_row M r c a HM Ha) as Hrow. destruct HM as [Hl _].
  rewrite (nth_map_lt _ M a []) by lia.
  now rewrite (nth_map_lt _ _ b da) by lia.
Qed.

Lemma entry_mat_zip {A B D : Type} (f : A -> B -> D) M M' r c a b da db dd :
  shape M r c -> shape M' r c -> (a < r)%nat -> (b < c)%nat ->
  entry dd (mat_zip f M M') a b = f (entry da M a b) (entry db M' a b).
Proof.
  intros HM HM' Ha Hb. unfold entry, mat_zip.
  pose proof (shape_row M r c a HM Ha) as Hrow.
  pose proof (shape_row M' r c a HM' Ha) as Hrow'.
  destruct HM as [Hl _], HM' as [Hl' _].
  rewrite (zip_with_nth (zip_with f) M M' a [] [] []) by lia.
  apply zip_with_nth; lia.
Qed.

(** ** Complex arithmetic *)

Lemma C_eq (z w : C) : re z = re w -> im z = im w -> z = w.
Proof. destruct z, w; simpl; intros; subst; reflexivity. Qed.

Ltac Csimpl := apply C_eq; simpl; try ring.

Lemma Cadd_0_l z : Cadd C0 z = z.
Proof. Csimpl. Qed.

Lemma Cadd_0_r z : Cadd z C0 = z.
Proof. Csimpl. Qed.

Lemma Cadd_comm z w : Cadd z w = Cadd w z.
Proof. Csimpl. Qed.

Lemma Cadd_assoc z w t : Cadd z (Cadd w t) = Cadd (Cadd z w) t.
Proof. Csimpl. Qed.

Lemma Cmul_comm z w : Cmul z w = Cmul w z.
Proof. Csimpl. Qed.

Lemma Cmul_assoc z w t : Cmul z (Cmul w t) = Cmul (Cmul z w) t.
Proof. Csimpl. Qed.

Lemma Cmul_0_l z : Cmul C0 z = C0.
Proof. Csimpl. Qed.

Lemma Cmul_0_r z : Cmul z C0 = C0.
Proof. Csimpl. Qed.

Lemma Cmul_1_l z : Cmul Cone z = z.
Proof. Csimpl. Qed.

Lemma Cmul_add_distr_l z w t : Cmul z (Cadd w t) = Cadd (Cmul z w) (Cmul z t).
Proof. Csimpl. Qed.

Lemma Cmul_add_distr_r z w t : Cmul (Cadd z w) t = Cadd (Cmul z t) (Cmul w t).
Proof. Csimpl. Qed.

Lemma Cabs_nonneg z : 0 <= Cabs z.
Proof. apply sqrt_pos. Qed.

Lemma Cabs_0 : Cabs C0 = 0.
Proof.
  unfold Cabs; simpl. replace (0 * 0 + 0 * 0) with 0 by ring. apply sqrt_0.
Qed.

Lemma Cabs_mul z w : Cabs (Cmul z w) = Cabs z * Cabs w.
Proof.
  unfold Cabs; simpl. rewrite <- sqrt_mult.
  - f_equal. ring.
  - nra.
  - nra.
Qed.

Lemma cis_add s t : cis (s + t) = Cmul (cis s) (cis t).
Proof.
  apply C_eq; simpl.
  - apply cos_plus.
  - rewrite sin_plus. ring.
Qed.

Lemma cis_0 : cis 0 = Cone.
Proof. unfold cis. now rewrite cos_0, sin_0. Qed.

Lemma Cabs_cis t : Cabs (cis t) = 1.
Proof.
  unfold Cabs; simpl.
  replace (cos t * cos t + sin t * sin t) with (Rsqr (sin t) + Rsqr (cos t))
    by (unfold Rsqr; ring).
  rewrite sin2_cos2. apply sqrt_1.
Qed.

Lemma cis_period_nat t (m : nat) : cis (t + 2 * INR m * PI) = cis t.
Proof. unfold cis. now rewrite cos_period, sin_period. Qed.

Lemma cis_period t (m : Z) : cis (t + 2 * PI * IZR m) = cis t.
Proof.
  destruct (Z_le_gt_dec 0 m) as [Hm|Hm].
  - rewrite <- (cis_period_nat t (Z.to_nat m)).
    rewrite INR_IZR_INZ, Z2Nat.id by assumption. f_equal. ring.
  - rewrite <- (cis_period_nat (t + 2 * PI * IZR m) (Z.to_nat (- m))).
    rewrite INR_IZR_INZ, Z2Nat.id by lia. rewrite opp_IZR. f_equal. ring.
Qed.

Lemma Cexp_imag t : Cexp (Cmul Ci (RtoC t)) = cis t.
Proof.
  unfold Cexp, cis; simpl.
  replace (0 * t - 1 * 0) with 0 by ring.
  replace (0 * 0 + 1 * t) with t by ring.
  rewrite exp_0. f_equal; ring.
Qed.

(** Division by a promoted real divides both parts. *)
Lemma Cdiv_real z r : r <> 0 -> Cdiv z (RtoC r) = mkC (re z / r) (im z / r).
Proof.
  intros Hr. unfold Cdiv; simpl. f_equal; field; auto.
Qed.

(** ** Sums *)

Lemma Csum_n_ext f g m :
  (forall i, (i < m)%nat -> f i = g i) -> Csum_n f m = Csum_n g m.
Proof.
  induction m as [|m IH]; intros H; simpl; auto.
  rewrite IH, H; auto.
Qed.

Lemma Csum_n_zero m : Csum_n (fun _ => C0) m = C0.
Proof. induction m as [|m IH]; simpl; auto. rewrite IH. apply Cadd_0_l. Qed.

Lemma Csum_n_add f g m :
  Csum_n (fun i => Cadd (f i) (g i)) m = Cadd (Csum_n f m) (Csum_n g m).
Proof.
  induction m as [|m IH]; simpl.
  - now rewrite Cadd_0_l.
  - rewrite IH. Csimpl.
Qed.

Lemma Csum_n_scal c f m :
  Csum_n (fun i => Cmul c (f i)) m = Cmul c (Csum_n f m).
Proof.
  induction m as [|m IH]; simpl.
  - now rewrite Cmul_0_r.
  - rewrite IH. now rewrite Cmul_add_distr_l.
Qed.

(** The first term split off. *)
Lemma Csum_n_head f m :
  Csum_n f (S m) = Cadd (f 0%nat) (Csum_n (fun i => f (S i)) m).
Proof.
  induction m as [|m IH].
  - simpl. Csimpl.
  - change (Csum_n f (S (S m))) with (Cadd (Csum_n f (S m)) (f (S m))).
    rewrite IH. simpl. Csimpl.
Qed.

(** A sum may be taken in the reverse order. *)
Lemma Csum_n_rev f m :
  Csum_n f m = Csum_n (fun i => f (m - 1 - i)%nat) m.
Proof.
  revert f. induction m as [|m IH]; intros f; auto.
  rewrite Csum_n_head.
  change (Csum_n (fun i => f (S m - 1 - i)%nat) (S m))
    with (Cadd (Csum_n (fun i => f (S m - 1 - i)%nat) m) (f (S m - 1 - m)%nat)).
  rewrite (IH (fun i => f (S i))).
  replace (S m - 1 - m)%nat with 0%nat by lia.
  rewrite Cadd_comm. f_equal.
  apply Csum_n_ext. intros i Hi. f_equal. lia.
Qed.

Lemma Csum_n_split f m1 m2 :
  Csum_n f (m1 + m2) = Cadd (Csum_n f m1) (Csum_n (fun i => f (m1 + i)%nat) m2).
Proof.
  induction m2 as [|m2 IH]; simpl.
  - rewrite Nat.add_0_r. now rewrite Cadd_0_r.
  - rewrite Nat.add_succ_r. simpl. rewrite IH. Csimpl.
Qed.

(** ** The grid *)

Lemma length_arange a b : length (arange a b) = Z.to_nat (b - a).
Proof. unfold arange. now rewrite length_map, length_seq. Qed.

Lemma nth_arange a b i :
  (i < Z.to_nat (b - a))%nat -> nth i (arange a b) 0%Z = (a + Z.of_nat i)%Z.
Proof.
  intros Hi. unfold arange.
  rewrite (nth_map_lt _ _ i 0%nat) by now rewrite length_seq.
  now rewrite seq_nth.
Qed.

Lemma length_pindr_I npx : length (pindr_I npx) = Z.to_nat npx.
Proof.
  unfold pindr_I, pindr_n. rewrite length_arange. f_equal. lia.
Qed.

Lemma length_pindr_x npx : length (pindr_x npx) = Z.to_nat npx.
Proof. unfold pindr_x. now rewrite length_map, length_pindr_I. Qed.

Lemma length_pindr_y npx : length (pindr_y npx) = Z.to_nat npx.
Proof. unfold pindr_y. now rewrite length_map, length_pindr_I. Qed.

Lemma nth_pindr_I npx a :
  (a < Z.to_nat npx)%nat -> nth a (pindr_I npx) 0%Z = (1 + Z.of_nat a)%Z.
Proof.
  intros Ha. unfold pindr_I, pindr_n. apply nth_arange.
  replace (npx + 1 - 1)%Z with npx by lia. assumption.
Qed.

Lemma nth_pindr_x npx a :
  (a < Z.to_nat npx)%nat -> nth a (pindr_x npx) 0%Z = coord_x npx a.
Proof.
  intros Ha. unfold pindr_x.
  rewrite (nth_map_lt _ _ a 0%Z) by now rewrite length_pindr_I.
  now rewrite nth_pindr_I.
Qed.

Lemma nth_pindr_y npx b :
  (b < Z.to_nat npx)%nat -> nth b (pindr_y npx) 0%Z = coord_y npx b.
Proof.
  intros Hb. unfold pindr_y.
  rewrite (nth_map_lt _ _ b 0%Z) by now rewrite length_pindr_I.
  now rewrite nth_pindr_I.
Qed.

Lemma shape_grid_outer {D : Type} (f : Z -> Z -> D) npx :
  shape (outer f (pindr_x npx) (pindr_y npx)) (Z.to_nat npx) (Z.to_nat npx).
Proof.
  pose proof (shape_outer f (pindr_x npx) (pindr_y npx)) as H.
  now rewrite length_pindr_x, length_pindr_y in H.
Qed.

(** ** The centering of the transform *)

Lemma length_shift1 {A : Type} (l : list A) : length (shift1 l) = length l.
Proof.
  unfold shift1. rewrite length_app, length_skipn, length_firstn.
  assert ((length l + 1) / 2 <= length l)%nat.
  { destruct (length l) as [|m]; [reflexivity|].
    apply Nat.Div0.div_le_upper_bound. lia. }
  lia.
Qed.

Lemma nth_shift1 {A : Type} (l : list A) j dflt :
  (j < length l)%nat ->
  nth j (shift1 l) dflt = nth ((j + (length l + 1) / 2) mod length l) l dflt.
Proof.
  intros Hj. unfold shift1.
  set (m := length l) in *. set (p2 := ((m + 1) / 2)%nat).
  assert (Hp2 : (p2 <= m)%nat).
  { unfold p2. apply Nat.Div0.div_le_upper_bound. lia. }
  destruct (Nat.lt_ge_cases j (m - p2)) as [Hlt|Hge].
  - rewrite app_nth1 by (rewrite length_skipn; fold m; lia).
    rewrite nth_skipn. rewrite Nat.mod_small by lia.
    f_equal. lia.
  - rewrite app_nth2 by (rewrite length_skipn; fold m; lia).
    rewrite length_skipn. fold m.
    rewrite nth_firstn.
    replace (j - (m - p2) <? p2)%nat with true
      by (symmetry; apply Nat.ltb_lt; lia).
    f_equal.
    replace (j + p2)%nat with ((j - (m - p2)) + 1 * m)%nat by lia.
    rewrite Nat.Div0.mod_add. rewrite Nat.mod_small by lia. reflexivity.
Qed.

Lemma In_shift1 {A : Type} (l : list A) a : In a (shift1 l) -> In a l.
Proof.
  unfold shift1. intros Hin.
  rewrite <- (firstn_skipn ((length l + 1) / 2) l).
  apply in_app_iff. apply in_app_iff in Hin. tauto.
Qed.

Lemma shape_fftshift {A : Type} (M : matrix A) r c :
  shape M r c -> shape (fftshift M) r c.
Proof.
  intros [Hl Hall]. unfold fftshift. split.
  - now rewrite length_shift1, length_map.
  - apply Forall_forall. intros row Hin. apply In_shift1 in Hin.
    apply in_map_iff in Hin. destruct Hin as [row' [<- Hin]].
    rewrite length_shift1. rewrite Forall_forall in Hall. now apply Hall.
Qed.

Lemma entry_fftshift {A : Type} (M : matrix A) r c j l dflt :
  shape M r c -> (j < r)%nat -> (l < c)%nat ->
  entry dflt (fftshift M) j l
  = entry dflt M ((j + (r + 1) / 2) mod r) ((l + (c + 1) / 2) mod c).
Proof.
  intros HM Hj Hl. unfold entry, fftshift.
  destruct HM as [Hlen Hall].
  rewrite nth_shift1 by (rewrite length_map; lia).
  rewrite length_map, Hlen.
  assert (Hp : ((j + (r + 1) / 2) mod r < r)%nat) by (apply Nat.mod_upper_bound; lia).
  rewrite (nth_map_lt _ M _ []) by lia.
  assert (Hrow : length (nth ((j + (r + 1) / 2) mod r) M []) = c)
    by (apply (shape_row M r c); [split; assumption | assumption]).
  rewrite nth_shift1 by lia.
  now rewrite Hrow.
Qed.

(** ** The transform *)

Lemma shape_hd {A : Type} (M : matrix A) N : shape M N N -> length (hd [] M) = N.
Proof.
  intros [Hl Hall]. destruct M as [|row t]; simpl in *; auto.
  now inversion Hall.
Qed.

Lemma shape_fft2 (A : matrix C) : shape (fft2 A) (length A) (length (hd [] A)).
Proof.
  unfold fft2. split.
  - now rewrite length_map, length_seq.
  - apply Forall_forall. intros row Hin. apply in_map_iff in Hin.
    destruct Hin as [p [<- _]]. now rewrite length_map, length_seq.
Qed.

Lemma entry_fft2 (A : matrix C) p q :
  (p < length A)%nat -> (q < length (hd [] A))%nat ->
  entry C0 (fft2 A) p q = dft2_at (length A) (length (hd [] A)) (at2 A) p q.
Proof.
  intros Hp Hq. unfold entry, fft2.
  rewrite (nth_map_lt _ _ p 0%nat) by now rewrite length_seq.
  rewrite (nth_map_lt _ _ q 0%nat) by now rewrite length_seq.
  now rewrite !seq_nth by assumption.
Qed.

Lemma dft2_at_ext n1 n2 f g p q :
  (forall a b, (a < n1)%nat -> (b < n2)%nat -> f a b = g a b) ->
  dft2_at n1 n2 f p q = dft2_at n1 n2 g p q.
Proof.
  intros H. unfold dft2_at.
  apply Csum_n_ext. intros a Ha. apply Csum_n_ext. intros b Hb.
  now rewrite H.
Qed.

(** ** Scalar divisions *)

Lemma py_div_ok a b : b <> 0 -> py_div a b = Ok (a / b).
Proof. intros Hb. unfold py_div. now destruct (Req_dec_T b 0). Qed.

Lemma py_div_zero a : py_div a 0 = Raise ZeroDivisionError.
Proof. unfold py_div. destruct (Req_dec_T 0 0); congruence. Qed.

Lemma py_cdiv_real_ok z r : r <> 0 -> py_cdiv z (RtoC r) = Ok (Cdiv z (RtoC r)).
Proof. intros Hr. unfold py_cdiv. simpl. now destruct (Req_dec_T r 0). Qed.

Lemma wavelength_nonzero k : k <> 0 -> 2 * PI / k <> 0.
Proof.
  intros Hk. unfold Rdiv. apply Rmult_integral_contrapositive_currified.
  - pose proof PI_RGT_0. lra.
  - now apply Rinv_neq_0_compat.
Qed.

(** ** The loop over the pinholes *)

Section Loop.

Variables (k : R) (npx nholes : Z) (R0 d : R).

Let N := Z.to_nat npx.

Lemma hole_ok lam M i :
  IZR nholes <> 0 -> lam <> 0 ->
  hole k npx nholes R0 d lam M i
  = Ok (mat_zip Cadd M (hole_term k npx nholes R0 d lam i)).
Proof.
  intros Hn Hlam. unfold hole.
  rewrite py_div_ok by assumption. simpl.
  rewrite py_cdiv_real_ok by assumption. reflexivity.
Qed.

Lemma shape_hole_term lam i : shape (hole_term k npx nholes R0 d lam i) N N.
Proof.
  unfold hole_term. apply shape_mat_zip; apply shape_mat_map;
    apply shape_grid_outer.
Qed.

Lemma entry_hole_term i a b :
  (a < N)%nat -> (b < N)%nat ->
  entry C0 (hole_term k npx nholes R0 d (2 * PI / k) (0 + Z.of_nat i)) a b
  = term_at k npx nholes R0 d i a b.
Proof.
  intros Ha Hb. unfold hole_term.
  set (ri := outer _ (pindr_x npx) (pindr_y npx)).
  assert (Hri : shape ri N N).
  { apply shape_grid_outer. }
  assert (Hent : entry 0 ri a b = ri_at npx nholes R0 d i a b).
  { unfold ri.
    rewrite (entry_outer _ _ _ a b 0%Z 0%Z)
      by (rewrite ?length_pindr_x, ?length_pindr_y; assumption).
    now rewrite nth_pindr_x, nth_pindr_y. }
  rewrite (entry_mat_zip Cdiv _ _ N N a b C0 C0)
    by (try apply shape_mat_map; assumption).
  rewrite (entry_mat_map _ ri N N a b 0) by assumption.
  rewrite (entry_mat_map RtoC ri N N a b 0) by assumption.
  rewrite Hent. reflexivity.
Qed.

Lemma for_holes_fold lam M idx :
  IZR nholes <> 0 -> lam <> 0 ->
  for_holes k npx nholes R0 d lam M idx
  = Ok (fold_left (fun M' i => mat_zip Cadd M' (hole_term k npx nholes R0 d lam i))
                  idx M).
Proof.
  intros Hn Hlam. revert M. induction idx as [|i rest IH]; intros M; simpl.
  - reflexivity.
  - rewrite hole_ok by assumption. simpl. apply IH.
Qed.

Lemma fold_holes_entries M m :
  shape M N N ->
  let M' := fold_left
              (fun M' i => mat_zip Cadd M' (hole_term k npx nholes R0 d (2 * PI / k) i))
              (map (fun i => (0 + Z.of_nat i)%Z) (seq 0 m)) M in
  shape M' N N /\
  forall a b, (a < N)%nat -> (b < N)%nat ->
    entry C0 M' a b
    = Cadd (entry C0 M a b) (Csum_n (fun i => term_at k npx nholes R0 d i a b) m).
Proof.
  intros HM. cbv zeta. induction m as [|m [IHs IHe]].
  - simpl. split; auto. intros. now rewrite Cadd_0_r.
  - rewrite seq_S, map_app, fold_left_app. cbn [fold_left map Nat.add Csum_n].
    split.
    + apply shape_mat_zip; auto using shape_hole_term.
    + intros a b Ha Hb.
      rewrite (entry_mat_zip Cadd _ _ N N a b C0 C0)
        by auto using shape_hole_term.
      rewrite IHe, entry_hole_term by assumption.
      now rewrite Cadd_assoc.
Qed.

(** The loop ends without an exception, and the mask it returns has the
    sum of the contributions of all pinholes at every entry. *)
Lemma for_holes_mask :
  k <> 0 ->
  exists M,
    for_holes k npx nholes R0 d (2 * PI / k) (zeros N N) (range nholes) = Ok M
    /\ shape M N N
    /\ forall a b, (a < N)%nat -> (b < N)%nat ->
         at2 M a b = mask_at k npx nholes R0 d a b.
Proof.
  intros Hk.
  destruct (Z_le_gt_dec nholes 0) as [Hle|Hgt].
  - exists (zeros N N). unfold range, arange.
    replace (Z.to_nat (nholes - 0)) with 0%nat by lia. simpl.
    split; [reflexivity|]. split; [apply shape_zeros|].
    intros a b _ _. rewrite at2_entry, entry_zeros. unfold mask_at.
    now replace (Z.to_nat nholes) with 0%nat by lia.
  - assert (Hn : IZR nholes <> 0) by (apply not_0_IZR; lia).
    rewrite for_holes_fold by auto using wavelength_nonzero.
    eexists. split; [reflexivity|].
    unfold range, arange. rewrite Z.sub_0_r.
    destruct (fold_holes_entries (zeros N N) (Z.to_nat nholes) (shape_zeros N N))
      as [Hs He].
    split; [exact Hs|].
    intros a b Ha Hb. rewrite at2_entry, He by assumption.
    now rewrite entry_zeros, Cadd_0_l.
Qed.

End Loop.

(** ** Entries of the output *)

Lemma shape_image_of_mask u v npx M :
  shape M (Z.to_nat npx) (Z.to_nat npx) ->
  shape (image_of_mask u v npx M) (Z.to_nat npx) (Z.to_nat npx).
Proof.
  intros HM. unfold image_of_mask. set (N := Z.to_nat npx) in *.
  set (xy := outer _ _ _).
  assert (Hxy : shape xy N N).
  { apply shape_grid_outer. }
  pose proof (shape_mat_zip Cmul xy M N N Hxy HM) as HA.
  apply shape_mat_map, shape_fftshift.
  pose proof (shape_fft2 (mat_zip Cmul xy M)) as HF.
  rewrite (shape_hd _ N HA) in HF. destruct HA as [HAl _].
  now rewrite HAl in HF.
Qed.

Lemma entry_image_of_mask u v npx M j l :
  let N := Z.to_nat npx in
  shape M N N -> (j < N)%nat -> (l < N)%nat ->
  rat2 (image_of_mask u v npx M) j l
  = Cabs (dft2_at N N
            (fun a b =>
               Cmul (Cexp (Cmul Ci (RtoC (u * IZR (coord_x npx a)
                                          + v * IZR (coord_y npx b)))))
                    (at2 M a b))
            ((j + (N + 1) / 2) mod N) ((l + (N + 1) / 2) mod N)).
Proof.
  intros N HM Hj Hl. unfold image_of_mask.
  set (xy := outer _ _ _).
  assert (Hxy : shape xy N N).
  { apply shape_grid_outer. }
  pose proof (shape_mat_zip Cmul xy M N N Hxy HM) as HA.
  pose proof (shape_fft2 (mat_zip Cmul xy M)) as HF.
  pose proof (shape_hd _ N HA) as Hhd.
  assert (HAl : length (mat_zip Cmul xy M) = N) by apply HA.
  rewrite Hhd, HAl in HF.
  assert (Hp : ((j + (N + 1) / 2) mod N < N)%nat) by (apply Nat.mod_upper_bound; lia).
  assert (Hq : ((l + (N + 1) / 2) mod N < N)%nat) by (apply Nat.mod_upper_bound; lia).
  rewrite rat2_entry.
  rewrite (entry_mat_map Cabs _ N N j l C0) by auto using shape_fftshift.
  rewrite (entry_fftshift _ N N) by assumption.
  rewrite entry_fft2 by lia.
  rewrite Hhd, HAl. f_equal.
  apply dft2_at_ext. intros a b Ha Hb.
  rewrite at2_entry.
  rewrite (entry_mat_zip Cmul xy M N N a b C0 C0) by assumption.
  f_equal. unfold xy.
  rewrite (entry_outer _ _ _ a b 0%Z 0%Z)
    by (rewrite ?length_pindr_x, ?length_pindr_y; assumption).
  now rewrite nth_pindr_x, nth_pindr_y.
Qed.

(** For a nonzero wavenumber and a positive size the call returns, and
    every entry of the returned grid is the magnitude of one bin of the
    transform of the field. *)
Lemma pindr_entries k u v npx nholes R0 d :
  k <> 0 -> (1 <= npx)%Z ->
  let N := Z.to_nat npx in
  exists g,
    pindr k u v npx nholes R0 d = Ok g
    /\ shape g N N
    /\ forall j l, (j < N)%nat -> (l < N)%nat ->
         rat2 g j l
         = Cabs (dft2_at N N (field_at k u v npx nholes R0 d)
                   ((j + (N + 1) / 2) mod N) ((l + (N + 1) / 2) mod N)).
Proof.
  intros Hk Hnpx N.
  destruct (for_holes_mask k npx nholes R0 d Hk) as [M [Hrun [HM Hmask]]].
  exists (image_of_mask u v npx M).
  split; [|split].
  - unfold pindr. rewrite py_div_ok by assumption. simpl.
    unfold pindr_n.
    replace (npx + 1 - 1 <? 0)%Z with false by (symmetry; apply Z.ltb_ge; lia).
    replace (npx + 1 - 1)%Z with npx by lia.
    rewrite Hrun. reflexivity.
  - now apply shape_image_of_mask.
  - intros j l Hj Hl. rewrite entry_image_of_mask by assumption.
    f_equal. apply dft2_at_ext. intros a b Ha Hb.
    unfold field_at. now rewrite Hmask.
Qed.

Lemma pindr_zero_wavenumber u v npx nholes R0 d :
  pindr 0 u v npx nholes R0 d = Raise ZeroDivisionError.
Proof. unfold pindr. now rewrite py_div_zero. Qed.

(** * The claims *)

(** C5: for every positive integer [npx] and any values of the other
    parameters, the grid returned by [pindr] has dimensions [npx] by [npx];
    and for a nonzero wavenumber a grid is returned. *)
Theorem pindr_output_shape k u v npx nholes R0 d :
  (1 <= npx)%Z ->
  when_returned (pindr k u v npx nholes R0 d)
    (fun g => shape g (Z.to_nat npx) (Z.to_nat npx))
  /\ (k <> 0 ->
      exists g, pindr k u v npx nholes R0 d = Ok g
                /\ shape g (Z.to_nat npx) (Z.to_nat npx)).
Proof.
  intros Hnpx.
  assert (Hret : k <> 0 ->
                 exists g, pindr k u v npx nholes R0 d = Ok g
                           /\ shape g (Z.to_nat npx) (Z.to_nat npx)).
  { intros Hk.
    destruct (pindr_entries k u v npx nholes R0 d Hk) as [g [Hg [Hs _]]]; [lia|].
    now exists g. }
  split; [|exact Hret].
  destruct (Req_dec_T k 0) as [->|Hk].
  - now rewrite pindr_zero_wavenumber.
  - destruct (Hret Hk) as [g [-> Hs]]. exact Hs.
Qed.

Lemma pindr_output_shape_witness :
  (1 <= 600)%Z /\
  (when_returned (pindr 350 1 1 600 8 2 (1 / 10))
     (fun g => shape g (Z.to_nat 600) (Z.to_nat 600))
   /\ (350 <> 0 ->
       exists g, pindr 350 1 1 600 8 2 (1 / 10) = Ok g
                 /\ shape g (Z.to_nat 600) (Z.to_nat 600))).
Proof.
  split; [lia | apply (pindr_output_shape 350 1 1 600 8 2 (1 / 10)); lia].
Defined.

(** A grid is determined by its shape and its entries. *)
Lemma matrix_ext (g h : matrix R) r c :
  shape g r c -> shape h r c ->
  (forall a b, (a < r)%nat -> (b < c)%nat -> rat2 g a b = rat2 h a b) ->
  g = h.
Proof.
  intros Hg Hh Hent.
  apply (nth_ext g h [] []).
  - destruct Hg, Hh. congruence.
  - intros a Ha. assert (Ha' : (a < r)%nat) by (destruct Hg; lia).
    apply (nth_ext _ _ 0 0).
    + now rewrite (shape_row g r c a), (shape_row h r c a).
    + intros b Hb. rewrite (shape_row g r c a) in Hb by assumption.
      now apply Hent.
Qed.

Lemma shape_rzeros r c : shape (rzeros r c) r c.
Proof.
  split; unfold rzeros.
  - apply repeat_length.
  - apply Forall_forall. intros row Hin. apply repeat_spec in Hin. subst.
    apply repeat_length.
Qed.

Lemma rat2_rzeros r c a b : (a < r)%nat -> (b < c)%nat -> rat2 (rzeros r c) a b = 0.
Proof.
  intros Ha Hb. unfold rat2, rzeros.
  rewrite nth_repeat_lt by assumption. now rewrite nth_repeat_lt.
Qed.

Lemma dft2_at_zero n1 n2 p q : dft2_at n1 n2 (fun _ _ => C0) p q = C0.
Proof.
  unfold dft2_at.
  rewrite (Csum_n_ext _ (fun _ => C0)); [apply Csum_n_zero|].
  intros a _.
  rewrite (Csum_n_ext _ (fun _ => C0)); [apply Csum_n_zero|].
  intros b _. apply Cmul_0_l.
Qed.




(** C10: the output is periodic in each shift parameter with period
    [2*PI], the grid coordinates being integers. *)
Theorem pindr_shift_periodic k u v npx nholes R0 d :
  pindr k (u + 2 * PI) v npx nholes R0 d = pindr k u v npx nholes R0 d
  /\ pindr k u (v + 2 * PI) npx nholes R0 d = pindr k u v npx nholes R0 d.
Proof.
  assert (Hphase : forall u' v' (m : Z) (X Y : Z),
             u' * IZR X + v' * IZR Y = u * IZR X + v * IZR Y + 2 * PI * IZR m ->
             Cexp (Cmul Ci (RtoC (u' * IZR X + v' * IZR Y)))
             = Cexp (Cmul Ci (RtoC (u * IZR X + v * IZR Y)))).
  { intros u' v' m X Y Heq. rewrite !Cexp_imag, Heq. apply cis_period. }
  assert (Himg : forall M,
             image_of_mask (u + 2 * PI) v npx M = image_of_mask u v npx M
             /\ image_of_mask u (v + 2 * PI) npx M = image_of_mask u v npx M).
  { intros M. unfold image_of_mask, outer. split.
    - do 4 f_equal. apply map_ext. intros X. apply map_ext. intros Y.
      apply (Hphase _ _ X). ring.
    - do 4 f_equal. apply map_ext. intros X. apply map_ext. intros Y.
      apply (Hphase _ _ Y). ring. }
  unfold pindr.
  destruct (py_div (2 * PI) k) as [lam|e]; simpl; [|split; reflexivity].
  destruct (pindr_n npx - 1 <? 0)%Z; [split; reflexivity|].
  destruct (for_holes _ _ _ _ _ _ _ _) as [M|e]; simpl; [|split; reflexivity].
  destruct (Himg M) as [-> ->]. split; reflexivity.
Qed.

(** C3, amended: the default parameter values of [pindr] are [k=350],
    [u=1.0], [v=1.0], [npx=600], [nholes=8], [R=2.0], [d=0.1]; a call
    without arguments is the call with these values. *)
Theorem pindr_default_values :
  pindr_defaults = mkParams 350 1 1 600 8 2 (1 / 10)
  /\ pindr_kw None None None None None None None = pindr 350 1 1 600 8 2 (1 / 10)
  /\ forall npx, pindr_kw None None None (Some npx) None None None
                 = pindr 350 1 1 npx 8 2 (1 / 10).
Proof. repeat split. Qed.

(** C3 as stated fails: the default shifts are not 0. *)
Lemma pindr_default_shift_not_zero :
  pindr_defaults <> mkParams 350 0 0 600 8 2 (1 / 10).
Proof.
  intros H. apply (f_equal p_u) in H. simpl in H. lra.
Qed.

Lemma coord_x_reflect npx a :
  Z.odd npx = true -> (a < Z.to_nat npx)%nat ->
  coord_x npx (reflect (Z.to_nat npx) a) = (- coord_x npx a)%Z.
Proof.
  intros Hodd Ha. unfold coord_x, reflect.
  rewrite Z.odd_spec in Hodd. destruct Hodd as [h Hh]. subst npx.
  replace (2 * h + 1 + 1)%Z with ((h + 1) * 2)%Z by ring.
  rewrite Z.div_mul by lia. lia.
Qed.

Lemma coord_y_opp npx a : coord_y npx a = (- coord_x npx a)%Z.
Proof. unfold coord_x, coord_y. lia. Qed.

(** C2, amended: for every [npx >= 1] the grid assigns to the pixel index
    [i] in [1..npx] the x-coordinate [i - (npx+1) div 2] and the
    y-coordinate [(npx+1) div 2 - i], with the integer floor division, so
    that y is the negated x-offset; when [npx] is odd these are
    [i - (npx+1)/2] and [(npx+1)/2 - i] and the offsets are symmetric around
    the grid center. *)
Theorem pindr_grid_coordinates npx i :
  (1 <= npx)%Z -> (1 <= i <= npx)%Z ->
  let xi := nth (Z.to_nat (i - 1)) (pindr_x npx) 0%Z in
  let yi := nth (Z.to_nat (i - 1)) (pindr_y npx) 0%Z in
  xi = (i - (npx + 1) / 2)%Z
  /\ yi = ((npx + 1) / 2 - i)%Z
  /\ yi = (- xi)%Z
  /\ (Z.odd npx = true ->
      IZR xi = IZR i - (IZR npx + 1) / 2
      /\ IZR yi = (IZR npx + 1) / 2 - IZR i
      /\ nth (Z.to_nat (npx + 1 - i - 1)) (pindr_x npx) 0%Z = (- xi)%Z
      /\ nth (Z.to_nat (npx + 1 - i - 1)) (pindr_y npx) 0%Z = (- yi)%Z).
Proof.
  intros Hnpx Hi xi yi.
  assert (Hlt : (Z.to_nat (i - 1) < Z.to_nat npx)%nat) by lia.
  assert (Hx : xi = (i - (npx + 1) / 2)%Z).
  { unfold xi. rewrite nth_pindr_x by assumption. unfold coord_x. lia. }
  assert (Hy : yi = ((npx + 1) / 2 - i)%Z).
  { unfold yi. rewrite nth_pindr_y by assumption. unfold coord_y. lia. }
  repeat split; try assumption; try lia.
  - rewrite Hx. rewrite Z.odd_spec in H. destruct H as [h Hh]. subst npx.
    replace (2 * h + 1 + 1)%Z with ((h + 1) * 2)%Z by ring.
    rewrite Z.div_mul by lia.
    rewrite minus_IZR, !plus_IZR, mult_IZR. simpl. field.
  - rewrite Hy. rewrite Z.odd_spec in H. destruct H as [h Hh]. subst npx.
    replace (2 * h + 1 + 1)%Z with ((h + 1) * 2)%Z by ring.
    rewrite Z.div_mul by lia.
    rewrite minus_IZR, !plus_IZR, mult_IZR. simpl. field.
  - rewrite nth_pindr_x by lia. rewrite Hx. unfold coord_x.
    rewrite Z.odd_spec in H. destruct H as [h Hh]. subst npx.
    replace (2 * h + 1 + 1)%Z with ((h + 1) * 2)%Z by ring.
    rewrite Z.div_mul by lia. lia.
  - rewrite nth_pindr_y by lia. rewrite Hy. unfold coord_y.
    rewrite Z.odd_spec in H. destruct H as [h Hh]. subst npx.
    replace (2 * h + 1 + 1)%Z with ((h + 1) * 2)%Z by ring.
    rewrite Z.div_mul by lia. lia.
Qed.

Lemma pindr_grid_coordinates_witness :
  ((1 <= 5)%Z /\ (1 <= 2 <= 5)%Z) /\
  (let xi := nth (Z.to_nat (2 - 1)) (pindr_x 5) 0%Z in
   let yi := nth (Z.to_nat (2 - 1)) (pindr_y 5) 0%Z in
   xi = (2 - (5 + 1) / 2)%Z
   /\ yi = ((5 + 1) / 2 - 2)%Z
   /\ yi = (- xi)%Z
   /\ (Z.odd 5 = true ->
       IZR xi = IZR 2 - (IZR 5 + 1) / 2
       /\ IZR yi = (IZR 5 + 1) / 2 - IZR 2
       /\ nth (Z.to_nat (5 + 1 - 2 - 1)) (pindr_x 5) 0%Z = (- xi)%Z
       /\ nth (Z.to_nat (5 + 1 - 2 - 1)) (pindr_y 5) 0%Z = (- yi)%Z)).
Proof.
  split; [split; lia | apply (pindr_grid_coordinates 5 2); lia].
Defined.

(** C2 as stated fails for an even size: with [npx = 2] the x-coordinates
    are 0 and 1, not -1/2 and 1/2, and they are not symmetric around the
    center. *)
Lemma pindr_grid_even_not_centered :
  pindr_x 2 = [0; 1]%Z /\ pindr_y 2 = [0; -1]%Z
  /\ ~ centered_by_real_division 2.
Proof.
  split; [reflexivity|]. split; [reflexivity|].
  intros H. destruct (H 1%Z) as [Hx _]; [lia|].
  simpl in Hx. lra.
Qed.

(** C8 as stated fails: with the wavenumber 0 and the other arguments at
    their defaults the call raises. *)
Lemma pindr_zero_wavenumber_raises :
  (1 <= 600)%Z /\ (1 <= 8)%Z
  /\ pindr 0 1 1 600 8 2 (1 / 10) = Raise ZeroDivisionError
  /\ ~ exists g, pindr 0 1 1 600 8 2 (1 / 10) = Ok g.
Proof.
  split; [lia|]. split; [lia|]. rewrite pindr_zero_wavenumber.
  split; [reflexivity|]. intros [g Hg]. discriminate.
Qed.

(** ** The relocation of the frequency bins *)

Lemma halves_add_up (N : nat) : (N / 2 + (N + 1) / 2 = N)%nat.
Proof.
  pose proof (Nat.div_mod_eq N 2) as H1.
  pose proof (Nat.div_mod_eq (N + 1) 2) as H2.
  pose proof (Nat.mod_upper_bound N 2) as H3.
  pose proof (Nat.mod_upper_bound (N + 1) 2) as H4.
  assert (H5 : ((N + 1) mod 2 = 1 - N mod 2)%nat).
  { rewrite <- Nat.Div0.add_mod_idemp_l.
    destruct (N mod 2) as [|[|r]] eqn:E; simpl; try reflexivity. lia. }
  lia.
Qed.

(** The bin [k1] lands at the position [(k1 + N/2) mod N], where the
    centered array reads it back. *)
Lemma bin_of_position (N k1 : nat) :
  (k1 < N)%nat ->
  (((k1 + N / 2) mod N + (N + 1) / 2) mod N = k1)%nat.
Proof.
  intros Hk. rewrite Nat.Div0.add_mod_idemp_l.
  rewrite <- Nat.add_assoc, halves_add_up.
  replace (k1 + N)%nat with (k1 + 1 * N)%nat by lia.
  rewrite Nat.Div0.mod_add. now apply Nat.mod_small.
Qed.

Lemma Cexp_twiddle t :
  Cexp (Cmul (RtoC (-2 * PI)) (Cmul Ci (RtoC t))) = cis (-2 * PI * t).
Proof.
  unfold Cexp, cis; simpl.
  replace (-2 * PI * (0 * t - 1 * 0) - 0 * (0 * 0 + 1 * t)) with 0 by ring.
  replace (-2 * PI * (0 * 0 + 1 * t) + 0 * (0 * t - 1 * 0)) with (-2 * PI * t) by ring.
  rewrite exp_0. f_equal; ring.
Qed.

Lemma Cexp_opp_imag t : Cexp (Cmul (Copp Ci) (RtoC t)) = cis (- t).
Proof.
  unfold Cexp, cis; simpl.
  replace (-0 * t - -(1) * 0) with 0 by ring.
  replace (-0 * 0 + -(1) * t) with (- t) by ring.
  rewrite exp_0. f_equal; ring.
Qed.

Lemma Cexp_wave k r : Cexp (Cmul (Cmul Ci (RtoC k)) (RtoC r)) = cis (k * r).
Proof.
  rewrite <- Cexp_imag. f_equal. Csimpl.
Qed.

(** The transform in terms of points of the unit circle. *)
Lemma dft2_at_cis n1 n2 f p q :
  dft2_at n1 n2 f p q
  = Csum_n (fun a =>
      Csum_n (fun b =>
        Cmul (f a b)
             (cis (-2 * PI * (INR p * INR a / INR n1 + INR q * INR b / INR n2))))
        n2) n1.
Proof.
  unfold dft2_at. apply Csum_n_ext. intros a _. apply Csum_n_ext. intros b _.
  now rewrite Cexp_twiddle.
Qed.

Section Refinement.

Variables (k u v : R) (npx nholes : Z) (R0 d : R).

Lemma ri_at_reference i a b :
  ri_at npx nholes R0 d i a b
  = ref_distance nholes R0 d i (IZR (coord_x npx a)) (IZR (coord_y npx b)).
Proof.
  unfold ri_at, ref_distance, ref_angle.
  rewrite Z.add_0_l, <- INR_IZR_INZ.
  replace (INR i * 2 * PI / IZR nholes) with (INR i * (2 * PI) / IZR nholes)
    by (unfold Rdiv; ring).
  f_equal. ring.
Qed.

Lemma term_at_reference i a b :
  term_at k npx nholes R0 d i a b
  = ref_kernel k (ref_distance nholes R0 d i (IZR (coord_x npx a)) (IZR (coord_y npx b))).
Proof.
  unfold term_at, ref_kernel, ref_wavelength.
  rewrite ri_at_reference. now rewrite Cexp_wave, Cexp_imag.
Qed.

Lemma field_at_reference a b :
  field_at k u v npx nholes R0 d a b = ref_field k u v npx nholes R0 d a b.
Proof.
  unfold field_at, ref_field, ref_shift_phase, mask_at, ref_mask.
  f_equal. apply Csum_n_ext. intros i _. apply term_at_reference.
Qed.

Lemma dft2_at_reference k1 k2 :
  (1 <= npx)%Z ->
  dft2_at (Z.to_nat npx) (Z.to_nat npx) (field_at k u v npx nholes R0 d) k1 k2
  = ref_bin k u v npx nholes R0 d k1 k2.
Proof.
  intros Hnpx. unfold dft2_at, ref_bin.
  assert (HN : INR (Z.to_nat npx) <> 0) by (apply not_0_INR; lia).
  apply Csum_n_ext. intros a _. apply Csum_n_ext. intros b _.
  rewrite field_at_reference, Cexp_twiddle, Cexp_opp_imag.
  do 2 f_equal. field. exact HN.
Qed.

End Refinement.



(** ** Point symmetry *)

Section Symmetry.

Variables (k : R) (npx nholes : Z) (R0 d : R).

(** The source [m + i] of [2*m] sources is opposite to the source [i]. *)
Lemma ri_at_opposite (m : nat) i a b a' b' :
  (0 < m)%nat -> nholes = (2 * Z.of_nat m)%Z ->
  coord_x npx a' = (- coord_x npx a)%Z ->
  coord_y npx b' = (- coord_y npx b)%Z ->
  ri_at npx nholes R0 d (m + i) a b = ri_at npx nholes R0 d i a' b'.
Proof.
  intros Hm Hn Hx Hy. unfold ri_at. rewrite Hx, Hy, !opp_IZR.
  assert (Hm' : INR m <> 0) by (apply not_0_INR; lia).
  replace (IZR (0 + Z.of_nat (m + i)) * 2 * PI / IZR nholes)
    with (IZR (0 + Z.of_nat i) * 2 * PI / IZR nholes + PI).
  - rewrite neg_cos, neg_sin. f_equal. ring.
  - rewrite Hn, !Z.add_0_l, mult_IZR, <- !INR_IZR_INZ, plus_INR.
    simpl (IZR 2). field. exact Hm'.
Qed.

Lemma ri_at_centered a b a' b' i :
  R0 = 0 ->
  coord_x npx a' = (- coord_x npx a)%Z ->
  coord_y npx b' = (- coord_y npx b)%Z ->
  ri_at npx nholes R0 d i a' b' = ri_at npx nholes R0 d i a b.
Proof.
  intros HR Hx Hy. unfold ri_at. rewrite Hx, Hy, !opp_IZR, HR. f_equal. ring.
Qed.

Lemma term_at_ri i j a b a' b' :
  ri_at npx nholes R0 d i a b = ri_at npx nholes R0 d j a' b' ->
  term_at k npx nholes R0 d i a b = term_at k npx nholes R0 d j a' b'.
Proof. intros H. unfold term_at. now rewrite H. Qed.

(** With the sources in opposite pairs, or all at the origin, the mask
    has the same value at a grid point and at its mirror image through
    the origin. *)
Lemma mask_at_point_symmetric a b a' b' :
  Z.even nholes = true \/ R0 = 0 ->
  coord_x npx a' = (- coord_x npx a)%Z ->
  coord_y npx b' = (- coord_y npx b)%Z ->
  mask_at k npx nholes R0 d a' b' = mask_at k npx nholes R0 d a b.
Proof.
  intros [Heven|HR] Hx Hy; unfold mask_at.
  - destruct (Z_le_gt_dec nholes 0) as [Hle|Hgt].
    { now replace (Z.to_nat nholes) with 0%nat by lia. }
    rewrite Z.even_spec in Heven. destruct Heven as [z Hz].
    set (m := Z.to_nat z).
    assert (Hm : (0 < m)%nat) by (unfold m; lia).
    assert (Hn : nholes = (2 * Z.of_nat m)%Z) by (unfold m; lia).
    replace (Z.to_nat nholes) with (m + m)%nat by lia.
    rewrite !Csum_n_split. rewrite Cadd_comm. f_equal.
    + apply Csum_n_ext. intros i _. apply term_at_ri.
      apply (ri_at_opposite m); auto; lia.
    + apply Csum_n_ext. intros i _. apply term_at_ri.
      symmetry. now apply (ri_at_opposite m).
  - apply Csum_n_ext. intros i _. apply term_at_ri. now apply ri_at_centered.
Qed.

End Symmetry.

(** For an odd size the positions [j] and [N-1-j] of the centered
    transform hold opposite frequencies. *)
Lemma opposite_positions N h j :
  N = (2 * h + 1)%nat -> (j < N)%nat ->
  (((j + (N + 1) / 2) mod N + (N - 1 - j + (N + 1) / 2) mod N) mod N = 0)%nat.
Proof.
  intros Hh Hj. rewrite <- Nat.Div0.add_mod.
  replace ((N + 1) / 2)%nat with (h + 1)%nat.
  - replace (j + (h + 1) + (N - 1 - j + (h + 1)))%nat with (2 * N)%nat by lia.
    apply Nat.Div0.mod_mul.
  - subst N. replace (2 * h + 1 + 1)%nat with ((h + 1) * 2)%nat by lia.
    now rewrite Nat.div_mul.
Qed.

(** * Further properties of [pindr] *)

Lemma cis_congr A B (m : Z) : A = B + 2 * PI * IZR m -> cis A = cis B.
Proof. intros ->. apply cis_period. Qed.

Lemma cis_mul_mid x z y : Cmul (Cmul (cis x) z) (cis y) = Cmul z (cis (x + y)).
Proof. rewrite cis_add. Csimpl. Qed.

Lemma cis_mul_out x z y : Cmul (cis x) (Cmul z (cis y)) = Cmul z (cis (x + y)).
Proof. rewrite cis_add. Csimpl. Qed.

(** Two arrays whose summands agree up to one factor of magnitude 1 have
    transforms of the same magnitude. *)
Lemma dft2_at_unit_factor n1 n2 f f' p q p' q' alpha :
  (forall a b, (a < n1)%nat -> (b < n2)%nat ->
     Cmul (f' a b)
          (cis (-2 * PI * (INR p * INR a / INR n1 + INR q * INR b / INR n2)))
     = Cmul (cis alpha)
         (Cmul (f a b)
            (cis (-2 * PI * (INR p' * INR a / INR n1 + INR q' * INR b / INR n2))))) ->
  Cabs (dft2_at n1 n2 f' p q) = Cabs (dft2_at n1 n2 f p' q').
Proof.
  intros H.
  assert (Hsum : dft2_at n1 n2 f' p q = Cmul (cis alpha) (dft2_at n1 n2 f p' q')).
  { rewrite !dft2_at_cis. rewrite <- Csum_n_scal.
    apply Csum_n_ext. intros a Ha. rewrite <- Csum_n_scal.
    apply Csum_n_ext. intros b Hb. now apply H. }
  rewrite Hsum, Cabs_mul, Cabs_cis. ring.
Qed.

Lemma IZR_coord_x npx a :
  IZR (coord_x npx a) = 1 + INR a - IZR ((npx + 1) / 2).
Proof.
  unfold coord_x. now rewrite minus_IZR, plus_IZR, <- INR_IZR_INZ.
Qed.

Lemma IZR_coord_y npx b :
  IZR (coord_y npx b) = IZR ((npx + 1) / 2) - (1 + INR b).
Proof.
  unfold coord_y. now rewrite minus_IZR, plus_IZR, <- INR_IZR_INZ.
Qed.

Lemma field_at_cis k u v npx nholes R0 d a b :
  field_at k u v npx nholes R0 d a b
  = Cmul (cis (u * IZR (coord_x npx a) + v * IZR (coord_y npx b)))
         (mask_at k npx nholes R0 d a b).
Proof. unfold field_at. now rewrite Cexp_imag. Qed.

(** The transform of the field with the shifts raised by [su] and [sv]
    steps of [2*PI/N]: the bin [(p, q)] has the magnitude that the bin
    [(p', q')] had, where [p' + su = p] and [q + sv = q'] modulo [N]. *)
Lemma dft2_field_shift k u v npx nholes R0 d (su sv p q p' q' : nat) :
  (1 <= npx)%Z ->
  let N := Z.to_nat npx in
  ((p' + su) mod N = p)%nat -> ((q + sv) mod N = q')%nat ->
  Cabs (dft2_at N N
          (field_at k (u + 2 * PI * INR su / INR N) (v + 2 * PI * INR sv / INR N)
                    npx nholes R0 d) p q)
  = Cabs (dft2_at N N (field_at k u v npx nholes R0 d) p' q').
Proof.
  intros Hnpx N Hp Hq.
  assert (HN : INR N <> 0) by (apply not_0_INR; unfold N; lia).
  pose proof (Nat.div_mod_eq (p' + su) N) as Hdp. rewrite Hp in Hdp.
  pose proof (Nat.div_mod_eq (q + sv) N) as Hdq. rewrite Hq in Hdq.
  set (mp := ((p' + su) / N)%nat) in *. set (mq := ((q + sv) / N)%nat) in *.
  assert (Hp' : INR p = INR p' + INR su - INR N * INR mp).
  { rewrite <- mult_INR, <- plus_INR, Hdp, plus_INR. ring. }
  assert (Hq' : INR q' = INR q + INR sv - INR N * INR mq).
  { rewrite <- mult_INR, <- plus_INR, Hdq, plus_INR. ring. }
  set (c := IZR ((npx + 1) / 2)).
  apply (dft2_at_unit_factor N N _ _ p q p' q'
           (2 * PI * INR su * (1 - c) / INR N + 2 * PI * INR sv * (c - 1) / INR N)).
  intros a b Ha Hb.
  rewrite !field_at_cis, cis_mul_mid, cis_mul_mid, cis_mul_out. f_equal.
  apply (cis_congr _ _ (Z.of_nat (mp * a) - Z.of_nat (mq * b))).
  rewrite minus_IZR, <- !INR_IZR_INZ, !mult_INR.
  rewrite IZR_coord_x, IZR_coord_y. fold c.
  rewrite Hp', Hq'. field. exact HN.
Qed.



(** ** Mirror symmetry *)

Section Mirror.

Variables (k : R) (npx nholes : Z) (R0 d : R).

Lemma ri_at_first a b b' :
  coord_y npx b' = (- coord_y npx b)%Z ->
  ri_at npx nholes R0 d 0 a b' = ri_at npx nholes R0 d 0 a b.
Proof.
  intros Hy. unfold ri_at. rewrite Hy, opp_IZR. simpl (IZR (0 + Z.of_nat 0)).
  replace (0 * 2 * PI / IZR nholes) with 0 by (unfold Rdiv; ring).
  rewrite sin_0. f_equal. ring.
Qed.

(** The source [n - i] of [n] sources is the mirror image of the source
    [i] in the x-axis. *)
Lemma ri_at_conjugate (n i : nat) a b b' :
  nholes = Z.of_nat n -> (0 < i < n)%nat ->
  coord_y npx b' = (- coord_y npx b)%Z ->
  ri_at npx nholes R0 d (n - i) a b = ri_at npx nholes R0 d i a b'.
Proof.
  intros Hn Hi Hy. unfold ri_at. rewrite Hy, opp_IZR.
  assert (Hn' : INR n <> 0) by (apply not_0_INR; lia).
  replace (IZR (0 + Z.of_nat (n - i)) * 2 * PI / IZR nholes)
    with (- (IZR (0 + Z.of_nat i) * 2 * PI / IZR nholes) + 2 * INR 1 * PI).
  - rewrite cos_period, sin_period, cos_neg, sin_neg. f_equal. ring.
  - rewrite Hn, !Z.add_0_l, <- !INR_IZR_INZ, minus_INR by lia.
    simpl (INR 1). field. exact Hn'.
Qed.

(** The mask has the same value at a grid point and at its mirror image in
    the x-axis, for any number of pinholes. *)
Lemma mask_at_mirror a b b' :
  coord_y npx b' = (- coord_y npx b)%Z ->
  mask_at k npx nholes R0 d a b' = mask_at k npx nholes R0 d a b.
Proof.
  intros Hy. unfold mask_at.
  destruct (Z.to_nat nholes) as [|m] eqn:Hm; [reflexivity|].
  assert (Hn : nholes = Z.of_nat (S m)) by lia.
  rewrite !Csum_n_head. f_equal.
  - apply term_at_ri. now apply ri_at_first.
  - rewrite (Csum_n_rev (fun i => term_at k npx nholes R0 d (S i) a b)).
    apply Csum_n_ext. intros i Hi. apply term_at_ri.
    replace (S (m - 1 - i)) with (S m - S i)%nat by lia.
    symmetry. apply ri_at_conjugate; auto. lia.
Qed.

Lemma coord_y_reflect b :
  Z.odd npx = true -> (b < Z.to_nat npx)%nat ->
  coord_y npx (reflect (Z.to_nat npx) b) = (- coord_y npx b)%Z.
Proof.
  intros Hodd Hb. rewrite !coord_y_opp. f_equal. now apply coord_x_reflect.
Qed.

End Mirror.

(** The transform of an array that is symmetric under the reflection of
    the column index has the same magnitude at opposite column
    frequencies, and likewise for the rows. *)
Lemma dft2_at_mirror_cols N f p q q' :
  (0 < N)%nat ->
  (forall a b, (a < N)%nat -> (b < N)%nat -> f a (N - 1 - b)%nat = f a b) ->
  ((q + q') mod N = 0)%nat ->
  Cabs (dft2_at N N f p q') = Cabs (dft2_at N N f p q).
Proof.
  intros HN Hf Hq.
  apply Nat.Div0.div_exact in Hq. set (mq := ((q + q') / N)%nat) in *.
  assert (HN' : INR N <> 0) by (apply not_0_INR; lia).
  assert (Hq' : INR q' = INR N * INR mq - INR q).
  { rewrite <- mult_INR, <- Hq, plus_INR. ring. }
  set (c := -2 * PI * (INR q' * (INR N - 1) / INR N)).
  assert (Hsum : dft2_at N N f p q' = Cmul (cis c) (dft2_at N N f p q)).
  { rewrite !dft2_at_cis. rewrite <- Csum_n_scal.
    apply Csum_n_ext. intros a Ha.
    rewrite Csum_n_rev. rewrite <- Csum_n_scal.
    apply Csum_n_ext. intros b Hb.
    rewrite Hf by assumption.
    rewrite (Cmul_comm (cis c)), <- Cmul_assoc. f_equal.
    rewrite <- cis_add. symmetry.
    rewrite <- (cis_period_nat _ (mq * b)).
    f_equal.
    rewrite !minus_INR by lia. rewrite !mult_INR.
    unfold c. rewrite Hq'. simpl (INR 1). field. exact HN'. }
  rewrite Hsum, Cabs_mul, Cabs_cis. ring.
Qed.

Lemma dft2_at_mirror_rows N f p p' q :
  (0 < N)%nat ->
  (forall a b, (a < N)%nat -> (b < N)%nat -> f (N - 1 - a)%nat b = f a b) ->
  ((p + p') mod N = 0)%nat ->
  Cabs (dft2_at N N f p' q) = Cabs (dft2_at N N f p q).
Proof.
  intros HN Hf Hp.
  apply Nat.Div0.div_exact in Hp. set (mp := ((p + p') / N)%nat) in *.
  assert (HN' : INR N <> 0) by (apply not_0_INR; lia).
  assert (Hp' : INR p' = INR N * INR mp - INR p).
  { rewrite <- mult_INR, <- Hp, plus_INR. ring. }
  set (c := -2 * PI * (INR p' * (INR N - 1) / INR N)).
  assert (Hsum : dft2_at N N f p' q = Cmul (cis c) (dft2_at N N f p q)).
  { rewrite !dft2_at_cis.
    rewrite Csum_n_rev. rewrite <- Csum_n_scal.
    apply Csum_n_ext. intros a Ha. rewrite <- Csum_n_scal.
    apply Csum_n_ext. intros b Hb.
    rewrite Hf by assumption.
    rewrite (Cmul_comm (cis c)), <- Cmul_assoc. f_equal.
    rewrite <- cis_add. symmetry.
    rewrite <- (cis_period_nat _ (mp * a)).
    f_equal.
    rewrite !minus_INR by lia. rewrite !mult_INR.
    unfold c. rewrite Hp'. simpl (INR 1). field. exact HN'. }
  rewrite Hsum, Cabs_mul, Cabs_cis. ring.
Qed.

Lemma odd_size npx :
  (1 <= npx)%Z -> Z.odd npx = true -> exists h, Z.to_nat npx = (2 * h + 1)%nat.
Proof.
  intros Hnpx Hodd. rewrite Z.odd_spec in Hodd. destruct Hodd as [z Hz].
  exists (Z.to_nat z). lia.
Qed.





(** ** Pinholes at the origin *)

Lemma Csum_n_const (c : C) m : Csum_n (fun _ => c) m = Cmul (RtoC (INR m)) c.
Proof.
  induction m as [|m IH].
  - simpl. Csimpl.
  - change (Csum_n (fun _ => c) (S m)) with (Cadd (Csum_n (fun _ => c) m) c).
    rewrite IH, S_INR. Csimpl.
Qed.

Lemma dft2_at_scal n1 n2 (c : C) f p q :
  dft2_at n1 n2 (fun a b => Cmul c (f a b)) p q = Cmul c (dft2_at n1 n2 f p q).
Proof.
  unfold dft2_at. rewrite <- Csum_n_scal. apply Csum_n_ext. intros a _.
  rewrite <- Csum_n_scal. apply Csum_n_ext. intros b _.
  symmetry. apply Cmul_assoc.
Qed.

Lemma Cabs_RtoC x : 0 <= x -> Cabs (RtoC x) = x.
Proof.
  intros Hx. unfold Cabs; simpl.
  replace (x * x + 0 * 0) with (x * x) by ring. now apply sqrt_square.
Qed.

Lemma ri_at_origin npx nholes nholes' d i i' a b :
  ri_at npx nholes 0 d i a b = ri_at npx nholes' 0 d i' a b.
Proof. unfold ri_at. f_equal. ring. Qed.

Lemma field_at_origin k u v npx nholes d a b :
  field_at k u v npx nholes 0 d a b
  = Cmul (RtoC (INR (Z.to_nat nholes))) (field_at k u v npx 1 0 d a b).
Proof.
  unfold field_at, mask_at.
  rewrite (Csum_n_ext _ (fun _ => term_at k npx 1 0 d 0 a b)).
  - rewrite Csum_n_const. change (Z.to_nat 1) with 1%nat. cbn [Csum_n].
    rewrite Cadd_0_l. Csimpl.
  - intros i _. unfold term_at. now rewrite (ri_at_origin npx nholes 1 d i 0%nat).
Qed.



(** ** The sign of the screen distance *)

Lemma hole_distance_sign k npx nholes R0 d lam M i :
  hole k npx nholes R0 (- d) lam M i = hole k npx nholes R0 d lam M i.
Proof.
  unfold hole. now replace ((- d) ^ 2) with (d ^ 2) by ring.
Qed.

Lemma for_holes_distance_sign k npx nholes R0 d lam M idx :
  for_holes k npx nholes R0 (- d) lam M idx = for_holes k npx nholes R0 d lam M idx.
Proof.
  revert M. induction idx as [|i rest IH]; intros M; simpl; [reflexivity|].
  rewrite hole_distance_sign.
  destruct (hole k npx nholes R0 d lam M i) as [M'|e]; simpl; auto.
Qed.

(** The screen distance enters through its square only: a call with the
    distance [-d] gives the result of the call with [d]. *)
Theorem pindr_distance_sign k u v npx nholes R0 d :
  pindr k u v npx nholes R0 (- d) = pindr k u v npx nholes R0 d.
Proof.
  unfold pindr.
  destruct (py_div (2 * PI) k) as [lam|e]; simpl; [|reflexivity].
  now rewrite for_holes_distance_sign.
Qed.

(** * The window *)

Lemma pindr_args_returns p :
  p_k p <> 0 -> (1 <= p_npx p)%Z ->
  exists g, pindr_args p = Ok g
            /\ shape g (Z.to_nat (p_npx p)) (Z.to_nat (p_npx p)).
Proof.
  intros Hk Hnpx. unfold pindr_args.
  destruct (pindr_entries (p_k p) (p_u p) (p_v p) (p_npx p) (p_nholes p)
              (p_R p) (p_d p) Hk) as [g [Hg [Hs _]]]; [lia|].
  now exists g.
Qed.

Lemma slider_wavenumber_nonzero (z : Z) : (1 <= z <= 1000)%Z -> IZR z <> 0.
Proof. intros Hz. apply not_0_IZR. lia. Qed.

Lemma preview_keeps_window self p :
  in_range self -> images_sized self ->
  p_k p <> 0 -> p_npx p = 100%Z ->
  keeps_window self (g <- pindr_args p ;; Ok (with_p100 self g)).
Proof.
  intros Hr [_ H600] Hk Hnpx.
  destruct (pindr_args_returns p Hk) as [g [Hg Hs]]; [lia|].
  rewrite Hg. simpl. exists (with_p100 self g).
  split; [reflexivity|]. split; [now repeat split|]. split; [exact Hr|].
  split; [|exact H600]. simpl. now rewrite Hnpx in Hs.
Qed.

(** The window keeps its invariant: [initUI] returns a state whose slider
    values are in their ranges and whose images are 100 by 100 and 600 by
    600, and from such a state no callback and no [plotIt] ends with an
    exception; each returns a state with the same slider values and images
    of these sizes. *)
Theorem window_invariant :
  (exists self0, initUI = Ok self0 /\ in_range self0 /\ images_sized self0)
  /\ forall self value,
       in_range self -> images_sized self ->
       ((1 <= value <= 1000)%Z -> keeps_window self (changeValue_k self value))
       /\ keeps_window self (changeValue_u self value)
       /\ keeps_window self (changeValue_v self value)
       /\ keeps_window self (changeValue_d self value)
       /\ keeps_window self (changeValue_r self value)
       /\ keeps_window self (changeValue_holes self value)
       /\ keeps_window self (plotIt self).
Proof.
  split.
  - unfold initUI, pindr_kw. cbn [default pindr_defaults p_k p_u p_v p_npx p_nholes p_R p_d].
    destruct (pindr_entries 350 1 1 100 8 2 (1 / 10)) as [g [Hg [Hs _]]];
      [lra | lia |].
    destruct (pindr_entries 350 1 1 600 8 2 (1 / 10)) as [h [Hh [Hs' _]]];
      [lra | lia |].
    rewrite Hg. simpl. rewrite Hh. simpl.
    eexists. split; [reflexivity|]. split.
    + unfold in_range. simpl. lia.
    + split; simpl; assumption.
  - intros self value Hr Hi.
    assert (Hk : IZR (sk self) <> 0).
    { apply slider_wavenumber_nonzero. apply Hr. }
    split; [|repeat split].
    + intros Hv. apply preview_keeps_window; auto.
      simpl. now apply slider_wavenumber_nonzero.
    + now apply preview_keeps_window.
    + now apply preview_keeps_window.
    + now apply preview_keeps_window.
    + now apply preview_keeps_window.
    + now apply preview_keeps_window.
    + unfold plotIt. destruct Hi as [H100 _].
      destruct (pindr_args_returns (args_plotIt self)) as [g [Hg Hs]];
        [exact Hk | simpl; lia |].
      rewrite Hg. simpl. exists (with_p600 self g).
      split; [reflexivity|]. split; [now repeat split|]. split; [exact Hr|].
      split; [exact H100 | exact Hs].
Qed.

Lemma window_invariant_witness :
  let self := mkExample 350 16 16 10 20 8 (rzeros 100 100) (rzeros 600 600) in
  (in_range self /\ images_sized self /\ (1 <= 500 <= 1000)%Z)
  /\ (keeps_window self (changeValue_k self 500)
      /\ keeps_window self (changeValue_r self 35)
      /\ keeps_window self (plotIt self)).
Proof.
  intros self.
  assert (Hr : in_range self) by (unfold in_range; simpl; lia).
  assert (Hi : images_sized self) by (split; apply shape_rzeros).
  split; [split; [exact Hr | split; [exact Hi | lia]] |].
  destruct (proj2 window_invariant self 500%Z Hr Hi) as [Hk [_ [_ [_ [_ [_ Hp]]]]]].
  destruct (proj2 window_invariant self 35%Z Hr Hi) as [_ [_ [_ [_ [Hrr _]]]]].
  split; [apply Hk; lia | split; [exact Hrr | exact Hp]].
Defined.

(** ** The shift sliders *)

Lemma INR_100 : INR (Z.to_nat 100) = 100.
Proof. rewrite INR_IZR_INZ. now rewrite Z2Nat.id by lia. Qed.

Lemma INR_600 : INR (Z.to_nat 600) = 600.
Proof. rewrite INR_IZR_INZ. now rewrite Z2Nat.id by lia. Qed.

Lemma INR_to_nat z : (0 <= z)%Z -> INR (Z.to_nat z) = IZR z.
Proof. intros Hz. rewrite INR_IZR_INZ. now rewrite Z2Nat.id. Qed.

(** The entries of two calls whose shifts differ by whole steps of
    [2*PI/npx]. *)
Lemma pindr_shift_entries k u1 v1 u0 v0 npx nholes R0 d (su sv : nat) :
  k <> 0 -> (1 <= npx)%Z ->
  let N := Z.to_nat npx in
  u1 = u0 + 2 * PI * INR su / INR N ->
  v1 = v0 + 2 * PI * INR sv / INR N ->
  exists g g0,
    pindr k u1 v1 npx nholes R0 d = Ok g
    /\ pindr k u0 v0 npx nholes R0 d = Ok g0
    /\ forall j l, (j < N)%nat -> (l < N)%nat ->
         rat2 g ((j + su) mod N) l = rat2 g0 j ((l + sv) mod N).
Proof.
  intros Hk Hnpx N -> ->.
  destruct (pindr_entries k (u0 + 2 * PI * INR su / INR N)
              (v0 + 2 * PI * INR sv / INR N) npx nholes R0 d Hk)
    as [g [Hg [_ He]]]; [lia|].
  destruct (pindr_entries k u0 v0 npx nholes R0 d Hk) as [g0 [Hg0 [_ He0]]]; [lia|].
  exists g, g0. split; [exact Hg|]. split; [exact Hg0|].
  intros j l Hj Hl. fold N in He, He0.
  assert (HN : (N <> 0)%nat) by (unfold N; lia).
  rewrite He by (try apply Nat.mod_upper_bound; assumption).
  rewrite He0 by (try apply Nat.mod_upper_bound; assumption).
  apply dft2_field_shift; [assumption| |].
  - rewrite !Nat.Div0.add_mod_idemp_l. f_equal. lia.
  - rewrite !Nat.Div0.add_mod_idemp_l. f_equal. lia.
Qed.

(** The shift sliders move the preview by whole pixels: with the x shift
    at [value] per cent the preview is the preview for 0 per cent moved
    [value] rows further, and with the y shift at [value] per cent it is the
    preview for 0 per cent moved [value] columns back, both circularly; at
    100 per cent the preview is the one for 0 per cent. *)
Theorem shift_sliders_move_preview self value :
  in_range self -> (0 <= value)%Z ->
  (exists s1 s0,
     changeValue_u self value = Ok s1 /\ changeValue_u self 0 = Ok s0
     /\ forall j l, (j < 100)%nat -> (l < 100)%nat ->
          rat2 (p100 s1) ((j + Z.to_nat value) mod 100) l = rat2 (p100 s0) j l)
  /\ (exists s1 s0,
        changeValue_v self value = Ok s1 /\ changeValue_v self 0 = Ok s0
        /\ forall j l, (j < 100)%nat -> (l < 100)%nat ->
             rat2 (p100 s1) j l = rat2 (p100 s0) j ((l + Z.to_nat value) mod 100)).
Proof.
  intros Hr Hv.
  assert (Hk : IZR (sk self) <> 0) by (apply slider_wavenumber_nonzero; apply Hr).
  split.
  - destruct (pindr_shift_entries (IZR (sk self))
                (IZR value * PI / 50) (IZR (sv self) * PI / 50)
                (IZR 0 * PI / 50) (IZR (sv self) * PI / 50)
                100 (hc self) (IZR (sr self) / 10) (IZR (sd self) / 100)
                (Z.to_nat value) 0 Hk) as [g [g0 [Hg [Hg0 He]]]].
    + lia.
    + rewrite INR_100, INR_to_nat by assumption. field.
    + simpl (INR 0). rewrite INR_100. field.
    + exists (with_p100 self g), (with_p100 self g0).
      unfold changeValue_u, pindr_args.
      cbn [args_changeValue_u p_k p_u p_v p_npx p_nholes p_R p_d].
      rewrite Hg, Hg0. cbn [bind].
      split; [reflexivity|]. split; [reflexivity|].
      intros j l Hj Hl. change (Z.to_nat 100) with 100%nat in He.
      cbn [p100 with_p100]. rewrite He by assumption.
      now rewrite Nat.add_0_r, Nat.mod_small.
  - destruct (pindr_shift_entries (IZR (sk self))
                (IZR (su self) * PI / 50) (IZR value * PI / 50)
                (IZR (su self) * PI / 50) (IZR 0 * PI / 50)
                100 (hc self) (IZR (sr self) / 10) (IZR (sd self) / 100)
                0 (Z.to_nat value) Hk) as [g [g0 [Hg [Hg0 He]]]].
    + lia.
    + simpl (INR 0). rewrite INR_100. field.
    + rewrite INR_100, INR_to_nat by assumption. field.
    + exists (with_p100 self g), (with_p100 self g0).
      unfold changeValue_v, pindr_args.
      cbn [args_changeValue_v p_k p_u p_v p_npx p_nholes p_R p_d].
      rewrite Hg, Hg0. cbn [bind].
      split; [reflexivity|]. split; [reflexivity|].
      intros j l Hj Hl. change (Z.to_nat 100) with 100%nat in He.
      cbn [p100 with_p100]. rewrite <- He by assumption.
      now rewrite Nat.add_0_r, Nat.mod_small.
Qed.

Lemma shift_sliders_move_preview_witness :
  let self := mkExample 350 16 16 10 20 8 (rzeros 100 100) (rzeros 600 600) in
  (in_range self /\ (0 <= 100)%Z)
  /\ ((exists s1 s0,
         changeValue_u self 100 = Ok s1 /\ changeValue_u self 0 = Ok s0
         /\ forall j l, (j < 100)%nat -> (l < 100)%nat ->
              rat2 (p100 s1) ((j + Z.to_nat 100) mod 100) l = rat2 (p100 s0) j l)
      /\ (exists s1 s0,
            changeValue_v self 100 = Ok s1 /\ changeValue_v self 0 = Ok s0
            /\ forall j l, (j < 100)%nat -> (l < 100)%nat ->
                 rat2 (p100 s1) j l
                 = rat2 (p100 s0) j ((l + Z.to_nat 100) mod 100))).
Proof.
  intros self.
  assert (Hr : in_range self) by (unfold in_range; simpl; lia).
  split; [split; [exact Hr | lia] |].
  apply (shift_sliders_move_preview self 100); [exact Hr | lia].
Defined.

(** The shift sliders move the image of [plotIt] by six pixels per cent:
    the image for the shifts [su] and [sv] per cent is the image for 0 and
    0 per cent, all else equal, moved [6*su] rows further and [6*sv]
    columns back, circularly. *)
Theorem shift_sliders_move_plot self self0 :
  in_range self ->
  sk self0 = sk self -> su self0 = 0%Z -> sv self0 = 0%Z ->
  sd self0 = sd self -> sr self0 = sr self -> hc self0 = hc self ->
  exists s1 s0,
    plotIt self = Ok s1 /\ plotIt self0 = Ok s0
    /\ forall j l, (j < 600)%nat -> (l < 600)%nat ->
         rat2 (p600 s1) ((j + 6 * Z.to_nat (su self)) mod 600) l
         = rat2 (p600 s0) j ((l + 6 * Z.to_nat (sv self)) mod 600).
Proof.
  intros Hr Hsk Hsu Hsv Hsd Hsr Hhc.
  assert (Hk : IZR (sk self) <> 0) by (apply slider_wavenumber_nonzero; apply Hr).
  assert (H6 : INR 6 = 6) by (simpl; ring).
  destruct Hr as [_ [Hu [Hv _]]].
  destruct (pindr_shift_entries (IZR (sk self))
              (IZR (su self) * PI / 50) (IZR (sv self) * PI / 50)
              (IZR 0 * PI / 50) (IZR 0 * PI / 50)
              600 (hc self) (IZR (sr self) / 10) (IZR (sd self) / 100)
              (6 * Z.to_nat (su self)) (6 * Z.to_nat (sv self)) Hk)
    as [g [g0 [Hg [Hg0 He]]]].
  - lia.
  - rewrite INR_600, mult_INR, H6, INR_to_nat by lia. field.
  - rewrite INR_600, mult_INR, H6, INR_to_nat by lia. field.
  - exists (with_p600 self g), (with_p600 self0 g0).
    unfold plotIt, pindr_args.
    cbn [args_plotIt p_k p_u p_v p_npx p_nholes p_R p_d].
    rewrite Hsk, Hsu, Hsv, Hsd, Hsr, Hhc, Hg, Hg0. cbn [bind].
    split; [reflexivity|]. split; [reflexivity|].
    intros j l Hj Hl. change (Z.to_nat 600) with 600%nat in He.
    cbn [p600 with_p600]. now apply He.
Qed.

Lemma shift_sliders_move_plot_witness :
  let self := mkExample 350 16 16 10 20 8 (rzeros 100 100) (rzeros 600 600) in
  let self0 := mkExample 350 0 0 10 20 8 (rzeros 100 100) (rzeros 600 600) in
  in_range self
  /\ exists s1 s0,
       plotIt self = Ok s1 /\ plotIt self0 = Ok s0
       /\ forall j l, (j < 600)%nat -> (l < 600)%nat ->
            rat2 (p600 s1) ((j + 6 * Z.to_nat (su self)) mod 600) l
            = rat2 (p600 s0) j ((l + 6 * Z.to_nat (sv self)) mod 600).
Proof.
  intros self self0.
  assert (Hr : in_range self) by (unfold in_range; simpl; lia).
  split; [exact Hr |].
  apply (shift_sliders_move_plot self self0 Hr); reflexivity.
Defined.

(** ** The arguments of the preview *)

Lemma shift_of_percent_inj (a b : Z) : IZR a * PI / 50 = IZR b * PI / 50 -> a = b.
Proof.
  intros H. apply eq_IZR. pose proof PI_RGT_0 as Hpi.
  apply (Rmult_eq_reg_r (PI / 50)); [|lra].
  unfold Rdiv in *. lra.
Qed.

(** After the toolkit has stored the new value, the callbacks of the
    wavenumber, of the two shifts and of the number of pinholes compute the
    preview with the arguments of [plotIt], at the size 100.  The callback
    of the screen distance passes the x shift for the y shift as well, and
    agrees with [plotIt] exactly when the two shift sliders are equal; the
    callback of the radius also passes a hundredth of the radius slider for
    the distance, and agrees with [plotIt] exactly when in addition the
    distance slider equals the radius slider. *)
Theorem preview_arguments self :
  args_changeValue_k self (sk self) = at_size 100 (args_plotIt self)
  /\ args_changeValue_u self (su self) = at_size 100 (args_plotIt self)
  /\ args_changeValue_v self (sv self) = at_size 100 (args_plotIt self)
  /\ args_changeValue_holes self (hc self) = at_size 100 (args_plotIt self)
  /\ (args_changeValue_d self (sd self) = at_size 100 (args_plotIt self)
      <-> su self = sv self)
  /\ (args_changeValue_r self (sr self) = at_size 100 (args_plotIt self)
      <-> su self = sv self /\ sd self = sr self).
Proof.
  repeat (split; [reflexivity|]).
  unfold args_changeValue_d, args_changeValue_r, args_plotIt, at_size. simpl.
  split; split.
  - intros H. apply (f_equal p_v) in H. simpl in H. now apply shift_of_percent_inj.
  - intros ->. reflexivity.
  - intros H. split.
    + apply (f_equal p_v) in H. simpl in H. now apply shift_of_percent_inj.
    + apply (f_equal p_d) in H. simpl in H. symmetry. apply eq_IZR. lra.
  - intros [-> ->]. reflexivity.
Qed.

(** * Symmetry about the centre index *)

(** ** Sums over a reflected index *)

Lemma Csum_n_rot1 f m :
  Csum_n (fun a => f (S a mod S m)%nat) (S m) = Csum_n f (S m).
Proof.
  rewrite (Csum_n_head f).
  change (Csum_n (fun a => f (S a mod S m)%nat) (S m))
    with (Cadd (Csum_n (fun a => f (S a mod S m)%nat) m) (f (S m mod S m)%nat)).
  rewrite Nat.Div0.mod_same, Cadd_comm. f_equal.
  apply Csum_n_ext. intros i Hi. now rewrite Nat.mod_small by lia.
Qed.

(** A sum over all residues may start anywhere. *)
Lemma Csum_n_rot f N t :
  (0 < N)%nat -> Csum_n (fun a => f ((a + t) mod N)%nat) N = Csum_n f N.
Proof.
  intros HN. destruct N as [|m]; [lia|]. clear HN.
  induction t as [|t IH].
  - apply Csum_n_ext. intros a Ha. rewrite Nat.add_0_r. now rewrite Nat.mod_small.
  - rewrite <- IH.
    rewrite <- (Csum_n_rot1 (fun x => f ((x + t) mod S m)%nat) m).
    apply Csum_n_ext. intros a Ha.
    rewrite Nat.Div0.add_mod_idemp_l. f_equal. f_equal. lia.
Qed.

Lemma Csum_n_reflect f N t :
  (0 < N)%nat ->
  Csum_n f N = Csum_n (fun a => f ((N - 1 - a + t) mod N)%nat) N.
Proof.
  intros HN. rewrite <- (Csum_n_rot f N t) by assumption.
  apply (Csum_n_rev (fun a => f ((a + t) mod N)%nat)).
Qed.

Lemma INR_reflected N t a :
  (0 < N)%nat -> (a < N)%nat ->
  INR ((N - 1 - a + t) mod N)
  = INR N - 1 - INR a + INR t - INR N * INR ((N - 1 - a + t) / N).
Proof.
  intros HN Ha.
  pose proof (Nat.div_mod_eq (N - 1 - a + t) N) as H.
  apply (f_equal INR) in H.
  rewrite !plus_INR, mult_INR, !minus_INR in H by lia.
  simpl (INR 1) in H. lra.
Qed.

(** The transform of an array that is symmetric under a reflection of both
    indices, taken modulo the size, has the same magnitude at opposite
    frequencies. *)
Lemma dft2_at_reflect_symmetric N t f p q p' q' :
  (0 < N)%nat ->
  (forall a b, (a < N)%nat -> (b < N)%nat ->
     f ((N - 1 - a + t) mod N)%nat ((N - 1 - b + t) mod N)%nat = f a b) ->
  ((p + p') mod N = 0)%nat -> ((q + q') mod N = 0)%nat ->
  Cabs (dft2_at N N f p' q') = Cabs (dft2_at N N f p q).
Proof.
  intros HN Hf Hp Hq.
  apply Nat.Div0.div_exact in Hp. apply Nat.Div0.div_exact in Hq.
  set (mp := ((p + p') / N)%nat) in *. set (mq := ((q + q') / N)%nat) in *.
  assert (HN' : INR N <> 0) by (apply not_0_INR; lia).
  assert (Hp' : INR p' = INR N * INR mp - INR p).
  { rewrite <- mult_INR, <- Hp, plus_INR. ring. }
  assert (Hq' : INR q' = INR N * INR mq - INR q).
  { rewrite <- mult_INR, <- Hq, plus_INR. ring. }
  set (c := -2 * PI * ((INR p' + INR q') * (INR N - 1 + INR t) / INR N)).
  assert (Hsum : dft2_at N N f p' q' = Cmul (cis c) (dft2_at N N f p q)).
  { rewrite !dft2_at_cis.
    rewrite (Csum_n_reflect _ N t) by assumption. rewrite <- Csum_n_scal.
    apply Csum_n_ext. intros a Ha. cbv beta.
    rewrite (Csum_n_reflect _ N t) by assumption. rewrite <- Csum_n_scal.
    apply Csum_n_ext. intros b Hb. cbv beta.
    rewrite Hf by assumption.
    rewrite (Cmul_comm (cis c)), <- Cmul_assoc. f_equal.
    rewrite <- cis_add. symmetry.
    rewrite <- (cis_period_nat _
                  (mp * a + mq * b + p' * ((N - 1 - a + t) / N)
                   + q' * ((N - 1 - b + t) / N))).
    f_equal.
    rewrite !INR_reflected by assumption.
    rewrite !plus_INR, !mult_INR.
    unfold c. rewrite Hp', Hq'. field. exact HN'. }
  rewrite Hsum, Cabs_mul, Cabs_cis. ring.
Qed.

(** The positions [j] and [centre_reflect N j] of the centered transform
    hold opposite frequencies. *)
Lemma centre_positions N j :
  (0 < N)%nat -> (j < N)%nat ->
  (((j + (N + 1) / 2) mod N + (centre_reflect N j + (N + 1) / 2) mod N) mod N
   = 0)%nat.
Proof.
  intros HN Hj. unfold centre_reflect.
  rewrite <- Nat.Div0.add_mod.
  rewrite (Nat.add_comm (_ mod N)), Nat.add_assoc, Nat.Div0.add_mod_idemp_r.
  pose proof (halves_add_up N) as Hh.
  replace (j + (N + 1) / 2 + (N + 1) / 2 + (2 * (N / 2) + N - j))%nat
    with (3 * N)%nat by lia.
  apply Nat.Div0.mod_mul.
Qed.

(** ** The grid point opposite to a grid point *)

Lemma coord_x_opposite npx a :
  (1 <= npx)%Z -> (a < Z.to_nat npx)%nat ->
  coord_x npx (opposite_index npx a) = (- coord_x npx a)%Z
  \/ opposite_index npx a = a.
Proof.
  intros Hnpx Ha. unfold opposite_index, coord_x. cbv zeta.
  destruct (Z.even npx) eqn:He.
  - apply Z.even_spec in He. destruct He as [h Hh].
    assert (Hc : ((npx + 1) / 2 = h)%Z).
    { subst npx. symmetry. apply (Z.div_unique _ _ _ 1); lia. }
    rewrite Hc.
    destruct (Nat.eq_dec a (Z.to_nat npx - 1)) as [Hlast|Hlast].
    + right. subst a.
      replace (Z.to_nat npx - 1 - (Z.to_nat npx - 1) + (Z.to_nat npx - 1))%nat
        with (Z.to_nat npx - 1)%nat by lia.
      apply Nat.mod_small. lia.
    + left.
      replace (Z.to_nat npx - 1 - a + (Z.to_nat npx - 1))%nat
        with (Z.to_nat npx - 2 - a + 1 * Z.to_nat npx)%nat by lia.
      rewrite Nat.Div0.mod_add, Nat.mod_small by lia. lia.
  - assert (Ho : Z.odd npx = true) by (rewrite <- Z.negb_even, He; reflexivity).
    apply Z.odd_spec in Ho. destruct Ho as [h Hh].
    assert (Hc : ((npx + 1) / 2 = h + 1)%Z).
    { subst npx. symmetry. apply (Z.div_unique _ _ _ 0); lia. }
    rewrite Hc. left.
    rewrite Nat.add_0_r, Nat.mod_small by lia. lia.
Qed.

(** ** Symmetries of the mask *)

Section MaskSymmetry.

Variables (k : R) (nholes : Z) (R0 d : R).

(** The source [m + i] of [2*m] sources is opposite to the source [i]. *)
Lemma ref_distance_opposite (m i : nat) X Y :
  (0 < m)%nat -> nholes = (2 * Z.of_nat m)%Z ->
  ref_distance nholes R0 d (m + i) X Y = ref_distance nholes R0 d i (- X) (- Y).
Proof.
  intros Hm Hn. unfold ref_distance, ref_angle.
  assert (Hm' : INR m <> 0) by (apply not_0_INR; lia).
  replace (INR (m + i) * (2 * PI) / IZR nholes)
    with (INR i * (2 * PI) / IZR nholes + PI).
  - rewrite neg_cos, neg_sin. f_equal. ring.
  - rewrite Hn, mult_IZR, <- INR_IZR_INZ, plus_INR. field. exact Hm'.
Qed.

Lemma ref_distance_centred i X Y :
  R0 = 0 ->
  ref_distance nholes R0 d i (- X) (- Y) = ref_distance nholes R0 d i X Y.
Proof. intros HR. unfold ref_distance. rewrite HR. f_equal. ring. Qed.

(** With the sources in opposite pairs, or all at the origin, the mask has
    the same value at a point and at its mirror image through the origin. *)
Lemma ref_mask_point_symmetric X Y :
  Z.even nholes = true \/ R0 = 0 ->
  ref_mask k nholes R0 d (- X) (- Y) = ref_mask k nholes R0 d X Y.
Proof.
  intros [Heven|HR]; unfold ref_mask.
  - destruct (Z_le_gt_dec nholes 0) as [Hle|Hgt].
    { now replace (Z.to_nat nholes) with 0%nat by lia. }
    rewrite Z.even_spec in Heven. destruct Heven as [z Hz].
    set (m := Z.to_nat z).
    assert (Hm : (0 < m)%nat) by (unfold m; lia).
    assert (Hn : nholes = (2 * Z.of_nat m)%Z) by (unfold m; lia).
    replace (Z.to_nat nholes) with (m + m)%nat by lia.
    rewrite !Csum_n_split. rewrite Cadd_comm. f_equal.
    + apply Csum_n_ext. intros i _. f_equal.
      rewrite (ref_distance_opposite m i (- X) (- Y)) by assumption.
      now rewrite !Ropp_involutive.
    + apply Csum_n_ext. intros i _. f_equal.
      symmetry. now apply ref_distance_opposite.
  - apply Csum_n_ext. intros i _. f_equal. now apply ref_distance_centred.
Qed.

Lemma ref_distance_first X Y :
  ref_distance nholes R0 d 0 X (- Y) = ref_distance nholes R0 d 0 X Y.
Proof.
  unfold ref_distance, ref_angle. simpl (INR 0).
  replace (0 * (2 * PI) / IZR nholes) with 0 by (unfold Rdiv; ring).
  rewrite sin_0. f_equal. ring.
Qed.

(** The source [n - i] of [n] sources is the mirror image of the source
    [i] in the x-axis. *)
Lemma ref_distance_conjugate (n i : nat) X Y :
  nholes = Z.of_nat n -> (0 < i < n)%nat ->
  ref_distance nholes R0 d (n - i) X Y = ref_distance nholes R0 d i X (- Y).
Proof.
  intros Hn Hi. unfold ref_distance, ref_angle.
  assert (Hn' : INR n <> 0) by (apply not_0_INR; lia).
  replace (INR (n - i) * (2 * PI) / IZR nholes)
    with (- (INR i * (2 * PI) / IZR nholes) + 2 * INR 1 * PI).
  - rewrite cos_period, sin_period, cos_neg, sin_neg. f_equal. ring.
  - rewrite Hn, <- INR_IZR_INZ, minus_INR by lia.
    simpl (INR 1). field. exact Hn'.
Qed.

(** The mask has the same value at a point and at its mirror image in the
    x-axis, for any number of sources. *)
Lemma ref_mask_mirror X Y :
  ref_mask k nholes R0 d X (- Y) = ref_mask k nholes R0 d X Y.
Proof.
  unfold ref_mask.
  destruct (Z.to_nat nholes) as [|m] eqn:Hm; [reflexivity|].
  assert (Hn : nholes = Z.of_nat (S m)) by lia.
  rewrite !Csum_n_head. f_equal.
  - f_equal. apply ref_distance_first.
  - rewrite (Csum_n_rev
               (fun i => ref_kernel k (ref_distance nholes R0 d (S i) X Y))).
    apply Csum_n_ext. intros i Hi. f_equal.
    replace (S (m - 1 - i)) with (S m - S i)%nat by lia.
    symmetry. apply ref_distance_conjugate; auto. lia.
Qed.

(** Without a shift, the field has the same value at a grid point and at
    the opposite one. *)
Lemma field_at_opposite npx a b :
  (1 <= npx)%Z -> Z.even nholes = true \/ R0 = 0 ->
  (a < Z.to_nat npx)%nat -> (b < Z.to_nat npx)%nat ->
  field_at k 0 0 npx nholes R0 d (opposite_index npx a) (opposite_index npx b)
  = field_at k 0 0 npx nholes R0 d a b.
Proof.
  intros Hnpx Hsrc Ha Hb. rewrite !field_at_reference.
  unfold ref_field, ref_shift_phase.
  replace (0 * IZR (coord_x npx (opposite_index npx a))
           + 0 * IZR (coord_y npx (opposite_index npx b))) with 0 by ring.
  replace (0 * IZR (coord_x npx a) + 0 * IZR (coord_y npx b)) with 0 by ring.
  f_equal.
  destruct (coord_x_opposite npx a Hnpx Ha) as [Hx|Hx];
    destruct (coord_x_opposite npx b Hnpx Hb) as [Hy|Hy].
  - rewrite !coord_y_opp, Hx, Hy, !opp_IZR.
    now apply ref_mask_point_symmetric.
  - rewrite Hy, Hx, opp_IZR.
    rewrite <- (ref_mask_mirror (IZR (coord_x npx a))).
    rewrite <- (ref_mask_point_symmetric _ (- IZR (coord_y npx b))) by assumption.
    now rewrite Ropp_involutive.
  - rewrite Hx, !coord_y_opp, Hy, !opp_IZR. apply ref_mask_mirror.
  - now rewrite Hx, Hy.
Qed.

End MaskSymmetry.



(** ** One pinhole off the origin on the 3 by 3 grid *)

Lemma sqrt13224_pos : 0 < sqrt 13224.
Proof. apply sqrt_lt_R0. lra. Qed.

Lemma sqrt13224_sqr : sqrt 13224 * sqrt 13224 = 13224.
Proof. apply sqrt_sqrt. lra. Qed.

Lemma d551_sqr : d551 * d551 = 587951 / 7286424.
Proof. unfold d551. apply sqrt_sqrt. lra. Qed.

Lemma k551_pos : 0 < k551.
Proof.
  unfold k551. pose proof PI_RGT_0. pose proof sqrt13224_pos.
  apply Rmult_lt_0_compat; lra.
Qed.

Lemma wavelength551 : 2 * PI / k551 = 8 / sqrt 13224.
Proof.
  unfold k551. pose proof PI_RGT_0. pose proof sqrt13224_pos.
  field. split; lra.
Qed.

(** The radial distance of a grid point from the pinhole at [(R551, 0)]. *)
Lemma ri_at_551 a b (m : R) :
  0 <= m ->
  (IZR (coord_x 3 a) - R551) * (IZR (coord_x 3 a) - R551)
  + IZR (coord_y 3 b) * IZR (coord_y 3 b) + 587951 / 7286424 = m * m / 13224 ->
  ri_at 3 1 R551 d551 0 a b = m / sqrt 13224.
Proof.
  intros Hm Heq. unfold ri_at.
  pose proof sqrt13224_pos as Hq. pose proof sqrt13224_sqr as Hq2.
  simpl (IZR (0 + Z.of_nat 0)).
  replace (0 * 2 * PI / 1) with 0 by field.
  rewrite cos_0, sin_0.
  replace ((IZR (coord_x 3 a) - R551 * 1) ^ 2 + (IZR (coord_y 3 b) - R551 * 0) ^ 2
           + d551 ^ 2) with (m * m / 13224).
  - apply sqrt_lem_1.
    + apply Rmult_le_pos; [nra | lra].
    + apply Rmult_le_pos; [lra | left; now apply Rinv_0_lt_compat].
    + transitivity (m * m / (sqrt 13224 * sqrt 13224)); [field; lra|].
      now rewrite Hq2.
  - rewrite <- Heq. replace (d551 ^ 2) with (d551 * d551) by ring.
    rewrite d551_sqr. ring.
Qed.

Lemma field_at_551 a b (m : Z) :
  (0 < m)%Z ->
  (IZR (coord_x 3 a) - R551) * (IZR (coord_x 3 a) - R551)
  + IZR (coord_y 3 b) * IZR (coord_y 3 b) + 587951 / 7286424
  = IZR m * IZR m / 13224 ->
  field_at k551 0 0 3 1 R551 d551 a b
  = mkC (1653 / IZR m * sin (IZR m * (PI / 4)))
        (- (1653 / IZR m * cos (IZR m * (PI / 4)))).
Proof.
  intros Hm Heq.
  pose proof sqrt13224_pos as Hq. pose proof sqrt13224_sqr as Hq2.
  assert (Hm' : 0 < IZR m) by now apply IZR_lt.
  unfold field_at, mask_at. change (Z.to_nat 1) with 1%nat.
  cbn [Csum_n]. unfold term_at.
  rewrite (ri_at_551 a b (IZR m)) by (auto; lra).
  rewrite Cexp_wave, Cexp_imag, wavelength551.
  replace (0 * IZR (coord_x 3 a) + 0 * IZR (coord_y 3 b)) with 0 by ring.
  replace (k551 * (IZR m / sqrt 13224)) with (IZR m * (PI / 4))
    by (unfold k551; field; lra).
  rewrite cis_0.
  assert (H8 : 8 / sqrt 13224 <> 0).
  { apply Rgt_not_eq. apply Rdiv_lt_0_compat; lra. }
  assert (Hr : IZR m / sqrt 13224 <> 0).
  { apply Rgt_not_eq. apply Rdiv_lt_0_compat; lra. }
  rewrite !Cdiv_real by assumption.
  apply C_eq; simpl.
  - transitivity (sqrt 13224 * sqrt 13224 / (8 * IZR m) * sin (IZR m * (PI / 4)));
      [field; lra|].
    rewrite Hq2. field. lra.
  - transitivity (- (sqrt 13224 * sqrt 13224 / (8 * IZR m) * cos (IZR m * (PI / 4))));
      [field; lra|].
    rewrite Hq2. field. lra.
Qed.

(** Odd multiples of [PI / 4]. *)
Lemma cis_eighths (m q r : Z) :
  m = (8 * q + r)%Z -> cis (IZR m * (PI / 4)) = cis (IZR r * (PI / 4)).
Proof.
  intros ->. apply (cis_congr _ _ q). rewrite plus_IZR, mult_IZR. field.
Qed.

Lemma cis_1_PI4 : cis (1 * (PI / 4)) = mkC (1 / sqrt 2) (1 / sqrt 2).
Proof. unfold cis. now rewrite Rmult_1_l, cos_PI4, sin_PI4. Qed.

Lemma cis_3_PI4 : cis (3 * (PI / 4)) = mkC (- (1 / sqrt 2)) (1 / sqrt 2).
Proof.
  unfold cis. rewrite cos_3PI4, sin_3PI4. f_equal.
  unfold Rdiv. ring.
Qed.

Lemma cis_5_PI4 : cis (5 * (PI / 4)) = mkC (- (1 / sqrt 2)) (- (1 / sqrt 2)).
Proof.
  replace (5 * (PI / 4)) with (PI / 4 + PI) by field.
  unfold cis. now rewrite neg_cos, neg_sin, cos_PI4, sin_PI4.
Qed.

Lemma cis_7_PI4 : cis (7 * (PI / 4)) = mkC (1 / sqrt 2) (- (1 / sqrt 2)).
Proof.
  replace (7 * (PI / 4)) with (3 * (PI / 4) + PI) by field.
  unfold cis. rewrite neg_cos, neg_sin, cos_3PI4, sin_3PI4. f_equal.
  unfold Rdiv. ring.
Qed.

Lemma half_sqr : 1 / sqrt 2 * (1 / sqrt 2) = 1 / 2.
Proof.
  assert (H : sqrt 2 * sqrt 2 = 2) by (apply sqrt_sqrt; lra).
  assert (H0 : 0 < sqrt 2) by (apply sqrt_lt_R0; lra).
  transitivity (1 / (sqrt 2 * sqrt 2)); [field; lra|]. now rewrite H.
Qed.

(** The column of frequency 0 of the transform: the rows are summed
    first. *)
Lemma dft2_at_col0 N f p :
  dft2_at N N f p 0
  = Csum_n (fun a => Cmul (Csum_n (fun b => f a b) N)
                          (cis (-2 * PI * (INR p * INR a / INR N)))) N.
Proof.
  rewrite dft2_at_cis. apply Csum_n_ext. intros a _.
  rewrite Cmul_comm, <- Csum_n_scal. apply Csum_n_ext. intros b _.
  rewrite Cmul_comm. f_equal. f_equal. simpl (INR 0). unfold Rdiv. ring.
Qed.

Lemma dft2_at_3_col0 f :
  let G := fun a => Cadd (Cadd (f a 0%nat) (f a 1%nat)) (f a 2%nat) in
  let x := cos (2 * (PI / 3)) in
  let y := sin (2 * (PI / 3)) in
  dft2_at 3 3 f 1 0
  = Cadd (Cadd (G 0%nat) (Cmul (G 1%nat) (mkC x (- y)))) (Cmul (G 2%nat) (mkC x y))
  /\ dft2_at 3 3 f 2 0
  = Cadd (Cadd (G 0%nat) (Cmul (G 1%nat) (mkC x y))) (Cmul (G 2%nat) (mkC x (- y))).
Proof.
  intros G x y.
  assert (Hw1 : cis (- (2 * (PI / 3))) = mkC x (- y)).
  { unfold cis. now rewrite cos_neg, sin_neg. }
  assert (Hw2 : cis (2 * (PI / 3)) = mkC x y) by reflexivity.
  split; rewrite dft2_at_col0; cbn [Csum_n].
  - replace (-2 * PI * (INR 1 * INR 0 / INR 3)) with 0 by (simpl; field).
    replace (-2 * PI * (INR 1 * INR 1 / INR 3)) with (- (2 * (PI / 3)))
      by (simpl; field).
    rewrite (cis_congr (-2 * PI * (INR 1 * INR 2 / INR 3)) (2 * (PI / 3)) (-1))
      by (simpl; field).
    rewrite cis_0, Hw1, Hw2. unfold G. apply C_eq; simpl; ring.
  - replace (-2 * PI * (INR 2 * INR 0 / INR 3)) with 0 by (simpl; field).
    rewrite (cis_congr (-2 * PI * (INR 2 * INR 1 / INR 3)) (2 * (PI / 3)) (-1))
      by (simpl; field).
    rewrite (cis_congr (-2 * PI * (INR 2 * INR 2 / INR 3)) (- (2 * (PI / 3))) (-1))
      by (simpl; field).
    rewrite cis_0, Hw1, Hw2. unfold G. apply C_eq; simpl; ring.
Qed.

(** Two bins of opposite frequency of a three-point transform have the
    same magnitude only if the cross term of the three summands
    vanishes. *)
Lemma three_point_magnitudes (G0 G1 G2 : C) (x y : R) :
  y <> 0 ->
  Cabs (Cadd (Cadd G0 (Cmul G1 (mkC x (- y)))) (Cmul G2 (mkC x y)))
  = Cabs (Cadd (Cadd G0 (Cmul G1 (mkC x y))) (Cmul G2 (mkC x (- y)))) ->
  (re G0 + x * (re G1 + re G2)) * (im G1 - im G2)
  + (im G0 + x * (im G1 + im G2)) * (re G2 - re G1) = 0.
Proof.
  intros Hy H. unfold Cabs in H.
  apply sqrt_inj in H; [|nra|nra]. simpl in H.
  apply (Rmult_eq_reg_l (4 * y)); [|lra]. rewrite Rmult_0_r.
  nra.
Qed.


(** * The floating-point run time *)

(** ** The ends of the range of the floats *)

Lemma float_limit_pos : 0 < Runtime.float_limit.
Proof. unfold Runtime.float_limit. lra. Qed.

Lemma float_tiny_pos : 0 < Runtime.float_tiny.
Proof. unfold Runtime.float_tiny. apply Rinv_0_lt_compat. lra. Qed.

Lemma zero_in_floats : ~ Runtime.exceeds_floats 0.
Proof.
  unfold Runtime.exceeds_floats. rewrite Rabs_R0.
  pose proof float_limit_pos. lra.
Qed.

Lemma moderate_in_floats x : moderate x -> ~ Runtime.exceeds_floats x.
Proof.
  unfold moderate, Runtime.exceeds_floats, Runtime.float_limit. intros H H'. lra.
Qed.

Lemma Rabs_square x : Rabs (x * x) = Rabs x * Rabs x.
Proof. apply Rabs_mult. Qed.

Lemma square_Rabs x : x * x = Rabs x * Rabs x.
Proof. rewrite <- Rabs_mult. symmetry. apply Rabs_pos_eq. nra. Qed.

Lemma moderate_square_in_floats x : moderate x -> ~ Runtime.exceeds_floats (x * x).
Proof.
  unfold moderate, Runtime.exceeds_floats, Runtime.float_limit. intros H H'.
  rewrite Rabs_square in H'. pose proof (Rabs_pos x) as H0.
  assert (H1 : Rabs x * Rabs x <= 2 ^ 100 * 2 ^ 100)
    by (apply Rmult_le_compat; lra).
  lra.
Qed.

Lemma not_tiny_square x : not_tiny x -> Runtime.float_tiny < x * x.
Proof.
  unfold not_tiny, Runtime.float_tiny. intros H.
  rewrite (square_Rabs x).
  assert (H0 : 0 <= / 2 ^ 100) by lra.
  assert (H1 : / 2 ^ 100 * / 2 ^ 100 <= Rabs x * Rabs x)
    by (apply Rmult_le_compat; lra).
  lra.
Qed.

Lemma fsq_nonneg x : 0 <= Runtime.fsq x.
Proof. unfold Runtime.fsq. destruct (Rle_dec _ _); nra. Qed.

Lemma fsq_0 : Runtime.fsq 0 = 0.
Proof. unfold Runtime.fsq. destruct (Rle_dec _ _); ring. Qed.

Lemma fsq_underflow x : x * x <= Runtime.float_tiny -> Runtime.fsq x = 0.
Proof. intros H. unfold Runtime.fsq. now destruct (Rle_dec _ _). Qed.

Lemma fsq_pos x : Runtime.float_tiny < x * x -> 0 < Runtime.fsq x.
Proof.
  intros H. unfold Runtime.fsq. pose proof float_tiny_pos.
  destruct (Rle_dec _ _); lra.
Qed.

(** ** Scalar operations *)

Lemma py_div_int_zero a : Runtime.py_div_int a 0 = Raise ZeroDivisionError.
Proof.
  unfold Runtime.py_div_int.
  destruct (Runtime.exceeds_floats_dec 0) as [H|H].
  - now apply zero_in_floats in H.
  - apply py_div_zero.
Qed.

Lemma py_div_int_overflow a b :
  Runtime.exceeds_floats b -> Runtime.py_div_int a b = Raise OverflowError.
Proof.
  intros H. unfold Runtime.py_div_int.
  now destruct (Runtime.exceeds_floats_dec b).
Qed.

Lemma py_div_int_ok a b :
  b <> 0 -> ~ Runtime.exceeds_floats b -> Runtime.py_div_int a b = Ok (a / b).
Proof.
  intros Hb H. unfold Runtime.py_div_int.
  destruct (Runtime.exceeds_floats_dec b); [contradiction|]. now apply py_div_ok.
Qed.

Lemma py_pow2_overflow d :
  Runtime.exceeds_floats (d * d) -> Runtime.py_pow2 d = Raise OverflowError.
Proof.
  intros H. unfold Runtime.py_pow2.
  now destruct (Runtime.exceeds_floats_dec (d * d)).
Qed.

Lemma py_pow2_ok d :
  ~ Runtime.exceeds_floats (d * d) -> Runtime.py_pow2 d = Ok (Runtime.fsq d).
Proof.
  intros H. unfold Runtime.py_pow2.
  now destruct (Runtime.exceeds_floats_dec (d * d)).
Qed.

(** ** Entries that are not numbers *)

Lemma oadd_none z w : Runtime.oadd z w = None <-> z = None \/ w = None.
Proof.
  destruct z, w; simpl; split; intros H; try reflexivity; auto;
    try discriminate; destruct H; discriminate.
Qed.

Lemma omul_some_none z w : Runtime.omul (Some z) w = None <-> w = None.
Proof. destruct w; simpl; split; intros H; try reflexivity; discriminate. Qed.

Lemma omul_none_some z w : Runtime.omul z (Some w) = None <-> z = None.
Proof. destruct z; simpl; split; intros H; try reflexivity; discriminate. Qed.

Lemma np_divide_none z r : Runtime.np_divide z r = None <-> r = 0.
Proof.
  unfold Runtime.np_divide. destruct (Req_dec_T r 0); split; intros H;
    try reflexivity; try assumption; try discriminate; contradiction.
Qed.

(** A sum is not a number exactly when one of its summands is not. *)
Lemma Osum_n_none f n :
  Runtime.Osum_n f n = None <-> exists i, (i < n)%nat /\ f i = None.
Proof.
  induction n as [|n IH]; simpl.
  - split; [discriminate|]. intros [i [Hi _]]. lia.
  - rewrite oadd_none, IH. split.
    + intros [[i [Hi Hf]]|Hf].
      * exists i. split; [lia | assumption].
      * exists n. split; [lia | assumption].
    + intros [i [Hi Hf]]. destruct (Nat.eq_dec i n) as [->|Hne].
      * now right.
      * left. exists i. split; [lia | assumption].
Qed.

Lemma every_entry_abs (D : matrix (option C)) :
  every_entry nan_or_nonneg (mat_map (option_map Cabs) D).
Proof.
  unfold every_entry, mat_map. apply Forall_forall. intros row Hrow.
  apply in_map_iff in Hrow. destruct Hrow as [row' [<- _]].
  apply Forall_forall. intros x Hx.
  apply in_map_iff in Hx. destruct Hx as [z [<- _]].
  destruct z; simpl; [apply Cabs_nonneg | exact Logic.I].
Qed.

Lemma every_entry_intro {A : Type} (P : A -> Prop) g r c dflt :
  shape g r c ->
  (forall a b, (a < r)%nat -> (b < c)%nat -> P (entry dflt g a b)) ->
  every_entry P g.
Proof.
  intros Hs H. pose proof Hs as [Hl Hall].
  apply Forall_forall. intros row Hrow.
  apply (In_nth _ _ []) in Hrow. destruct Hrow as [a [Ha <-]].
  apply Forall_forall. intros x Hx.
  apply (In_nth _ _ dflt) in Hx. destruct Hx as [b [Hb <-]].
  apply H; [lia|]. rewrite (shape_row g r c a Hs) in Hb; [assumption | lia].
Qed.

Lemma every_entry_elim {A : Type} (P : A -> Prop) g r c dflt a b :
  shape g r c -> every_entry P g -> (a < r)%nat -> (b < c)%nat ->
  P (entry dflt g a b).
Proof.
  intros Hs H Ha Hb. pose proof Hs as [Hl Hall].
  unfold every_entry in H. rewrite Forall_forall in H.
  assert (Hrow : In (nth a g []) g) by (apply nth_In; lia).
  specialize (H _ Hrow). rewrite Forall_forall in H.
  apply H. unfold entry. apply nth_In.
  now rewrite (shape_row g r c a Hs).
Qed.

(** ** The transform *)

Lemma rt_fft2_empty (A : matrix (option C)) :
  shape A 0 0 -> Runtime.fft2 A = Raise ValueError.
Proof.
  intros [Hl _]. unfold Runtime.fft2. now rewrite Hl.
Qed.

Lemma rt_fft2_ok (A : matrix (option C)) N :
  (0 < N)%nat -> shape A N N ->
  exists D,
    Runtime.fft2 A = Ok D /\ shape D N N
    /\ forall p q, (p < N)%nat -> (q < N)%nat ->
         (entry (Some C0) D p q = None
          <-> exists a b, (a < N)%nat /\ (b < N)%nat /\ entry (Some C0) A a b = None).
Proof.
  intros HN HA. pose proof (shape_hd A N HA) as Hhd. pose proof HA as [Hl _].
  unfold Runtime.fft2. rewrite Hhd, Hl.
  replace (Nat.eqb N 0) with false by (symmetry; apply Nat.eqb_neq; lia).
  simpl orb. cbv iota. eexists. split; [reflexivity|]. split.
  - split.
    + now rewrite length_map, length_seq.
    + apply Forall_forall. intros row Hin. apply in_map_iff in Hin.
      destruct Hin as [p [<- _]]. now rewrite length_map, length_seq.
  - intros p q Hp Hq. unfold entry.
    rewrite (nth_map_lt _ _ p 0%nat) by now rewrite length_seq.
    rewrite (nth_map_lt _ _ q 0%nat) by now rewrite length_seq.
    rewrite !seq_nth by assumption. cbn [Nat.add].
    rewrite Osum_n_none. split.
    + intros [a [Ha Hsum]]. apply Osum_n_none in Hsum.
      destruct Hsum as [b [Hb Hab]]. apply omul_none_some in Hab.
      exists a, b. auto.
    + intros [a [b [Ha [Hb Hab]]]]. exists a. split; [assumption|].
      apply Osum_n_none. exists b. split; [assumption|].
      apply omul_none_some. exact Hab.
Qed.

(** ** The loop over the pinholes *)

Lemma In_range n i : In i (range n) <-> (0 <= i < n)%Z.
Proof.
  unfold range, arange. rewrite in_map_iff. split.
  - intros [j [<- Hj]]. apply in_seq in Hj. lia.
  - intros Hi. exists (Z.to_nat i). split; [lia|]. apply in_seq. lia.
Qed.

Lemma range_empty n : (n <= 0)%Z -> range n = [].
Proof.
  intros H. unfold range, arange. now replace (Z.to_nat (n - 0)) with 0%nat by lia.
Qed.

Lemma range_first n : (1 <= n)%Z -> exists rest, range n = 0%Z :: rest.
Proof.
  intros H. unfold range, arange.
  destruct (Z.to_nat (n - 0)) as [|m] eqn:Hm; [lia|].
  simpl. eexists. reflexivity.
Qed.

Section RuntimeLoop.

Variables (k : R) (npx nholes : Z) (R0 d : R).

Let N := Z.to_nat npx.

Lemma rt_hole_ok lam M i :
  IZR nholes <> 0 -> lam <> 0 -> ~ Runtime.exceeds_floats (d * d) ->
  Runtime.hole k npx nholes R0 d lam M i
  = Ok (mat_zip Runtime.oadd M (Runtime.hole_term k npx nholes R0 d lam i)).
Proof.
  intros Hn Hlam Hd. unfold Runtime.hole.
  rewrite py_div_ok by assumption. simpl.
  rewrite py_pow2_ok by assumption. simpl.
  rewrite py_cdiv_real_ok by assumption. reflexivity.
Qed.

Lemma rt_hole_overflow lam M i :
  IZR nholes <> 0 -> Runtime.exceeds_floats (d * d) ->
  Runtime.hole k npx nholes R0 d lam M i = Raise OverflowError.
Proof.
  intros Hn Hd. unfold Runtime.hole.
  rewrite py_div_ok by assumption. simpl.
  now rewrite py_pow2_overflow.
Qed.

Lemma rt_shape_hole_term lam i :
  shape (Runtime.hole_term k npx nholes R0 d lam i) N N.
Proof.
  unfold Runtime.hole_term. apply shape_mat_zip; try apply shape_mat_map;
    apply shape_grid_outer.
Qed.

Lemma rt_hole_term_none lam i a b :
  (a < N)%nat -> (b < N)%nat ->
  entry (Some C0) (Runtime.hole_term k npx nholes R0 d lam i) a b = None
  <-> Runtime.ri_at npx nholes R0 d i a b = 0.
Proof.
  intros Ha Hb. unfold Runtime.hole_term.
  set (ri := outer _ (pindr_x npx) (pindr_y npx)).
  assert (Hri : shape ri N N) by apply shape_grid_outer.
  assert (Hent : entry 0 ri a b = Runtime.ri_at npx nholes R0 d i a b).
  { unfold ri.
    rewrite (entry_outer _ _ _ a b 0%Z 0%Z)
      by (rewrite ?length_pindr_x, ?length_pindr_y; assumption).
    now rewrite nth_pindr_x, nth_pindr_y. }
  rewrite (entry_mat_zip Runtime.np_divide _ _ N N a b C0 0)
    by (try apply shape_mat_map; assumption).
  rewrite Hent. apply np_divide_none.
Qed.

Lemma rt_for_holes_ok lam idx :
  IZR nholes <> 0 -> lam <> 0 -> ~ Runtime.exceeds_floats (d * d) ->
  forall M, shape M N N ->
  exists M',
    Runtime.for_holes k npx nholes R0 d lam M idx = Ok M'
    /\ shape M' N N
    /\ forall a b, (a < N)%nat -> (b < N)%nat ->
         (entry (Some C0) M' a b = None
          <-> entry (Some C0) M a b = None
              \/ exists i, In i idx /\ Runtime.ri_at npx nholes R0 d i a b = 0).
Proof.
  intros Hn Hlam Hd. induction idx as [|i rest IH]; intros M HM.
  - exists M. split; [reflexivity|]. split; [assumption|].
    intros a b _ _. split; [auto|]. intros [H|[i [[] _]]]. exact H.
  - cbn [Runtime.for_holes]. rewrite rt_hole_ok by assumption. cbn [bind].
    set (M1 := mat_zip Runtime.oadd M (Runtime.hole_term k npx nholes R0 d lam i)).
    assert (HM1 : shape M1 N N)
      by (apply shape_mat_zip; [assumption | apply rt_shape_hole_term]).
    destruct (IH M1 HM1) as [M' [Hrun [Hs He]]].
    exists M'. split; [exact Hrun|]. split; [exact Hs|].
    intros a b Ha Hb. rewrite (He a b Ha Hb). unfold M1.
    rewrite (entry_mat_zip Runtime.oadd _ _ N N a b (Some C0) (Some C0))
      by (try apply rt_shape_hole_term; assumption).
    rewrite oadd_none, rt_hole_term_none by assumption.
    split.
    + intros [[H|H]|[j [Hj H]]].
      * now left.
      * right. exists i. split; [now left | assumption].
      * right. exists j. split; [now right | assumption].
    + intros [H|[j [[<-|Hj] H]]].
      * left. now left.
      * left. now right.
      * right. exists j. split; assumption.
Qed.

Lemma rt_for_holes_overflow lam M i rest :
  IZR nholes <> 0 -> Runtime.exceeds_floats (d * d) ->
  Runtime.for_holes k npx nholes R0 d lam M (i :: rest) = Raise OverflowError.
Proof.
  intros Hn Hd. cbn [Runtime.for_holes]. now rewrite rt_hole_overflow.
Qed.

Lemma shape_some_zeros : shape (mat_map Some (zeros N N)) N N.
Proof. apply shape_mat_map, shape_zeros. Qed.

Lemma entry_some_zeros a b :
  (a < N)%nat -> (b < N)%nat ->
  entry (Some C0) (mat_map Some (zeros N N)) a b <> None.
Proof.
  intros Ha Hb.
  rewrite (entry_mat_map Some _ N N a b C0) by (try apply shape_zeros; assumption).
  discriminate.
Qed.

(** The loop started on the mask of zeros: it ends without an exception
    unless [d**2] raises in its first pass, and an entry of the mask it
    returns is not a number exactly when a divisor at that entry was 0 in
    one of the passes. *)
Lemma rt_loop lam :
  lam <> 0 -> (nholes <= 0)%Z \/ ~ Runtime.exceeds_floats (d * d) ->
  exists M,
    Runtime.for_holes k npx nholes R0 d lam (mat_map Some (zeros N N)) (range nholes)
    = Ok M
    /\ shape M N N
    /\ forall a b, (a < N)%nat -> (b < N)%nat ->
         (entry (Some C0) M a b = None
          <-> exists i, (0 <= i < nholes)%Z
                        /\ Runtime.ri_at npx nholes R0 d i a b = 0).
Proof.
  intros Hlam Hcase.
  destruct (Z_le_gt_dec nholes 0) as [Hle|Hgt].
  - rewrite range_empty by assumption.
    exists (mat_map Some (zeros N N)). split; [reflexivity|].
    split; [apply shape_some_zeros|].
    intros a b Ha Hb. split.
    + intros H. now apply entry_some_zeros in H.
    + intros [i [Hi _]]. lia.
  - destruct Hcase as [Hle|Hd]; [lia|].
    assert (Hn : IZR nholes <> 0) by (apply not_0_IZR; lia).
    destruct (rt_for_holes_ok lam (range nholes) Hn Hlam Hd _ shape_some_zeros)
      as [M [Hrun [Hs He]]].
    exists M. split; [exact Hrun|]. split; [exact Hs|].
    intros a b Ha Hb. rewrite (He a b Ha Hb). split.
    + intros [H|[i [Hi H]]].
      * now apply entry_some_zeros in H.
      * exists i. split; [now apply In_range | assumption].
    + intros [i [Hi H]]. right. exists i. split; [now apply In_range | assumption].
Qed.

Lemma rt_loop_overflow lam M :
  (1 <= nholes)%Z -> Runtime.exceeds_floats (d * d) ->
  Runtime.for_holes k npx nholes R0 d lam M (range nholes) = Raise OverflowError.
Proof.
  intros Hn Hd. destruct (range_first nholes Hn) as [rest ->].
  apply rt_for_holes_overflow; [|assumption]. apply not_0_IZR. lia.
Qed.

End RuntimeLoop.

(** ** The image of the mask *)

Lemma rt_image_of_mask_empty u v M :
  shape M 0 0 -> Runtime.image_of_mask u v 0 M = Raise ValueError.
Proof.
  intros HM. unfold Runtime.image_of_mask.
  rewrite rt_fft2_empty; [reflexivity|].
  apply (shape_mat_zip _ _ _ 0%nat 0%nat); [|assumption].
  apply (shape_grid_outer _ 0%Z).
Qed.

Lemma rt_image_of_mask u v npx M :
  (1 <= npx)%Z ->
  let N := Z.to_nat npx in
  shape M N N ->
  exists g,
    Runtime.image_of_mask u v npx M = Ok g
    /\ shape g N N
    /\ forall j l, (j < N)%nat -> (l < N)%nat ->
         (nan_at g j l
          <-> exists a b, (a < N)%nat /\ (b < N)%nat /\ entry (Some C0) M a b = None).
Proof.
  intros Hnpx N HM. unfold Runtime.image_of_mask.
  set (xy := outer _ _ _).
  assert (Hxy : shape xy N N) by apply shape_grid_outer.
  set (A := mat_zip _ xy M).
  assert (HA : shape A N N) by (apply shape_mat_zip; assumption).
  assert (HN : (0 < N)%nat) by (unfold N; lia).
  destruct (rt_fft2_ok A N HN HA) as [D [-> [HD He]]]. cbn [bind].
  eexists. split; [reflexivity|]. split.
  - apply shape_mat_map, shape_fftshift, HD.
  - intros j l Hj Hl. unfold nan_at.
    assert (Hp : ((j + (N + 1) / 2) mod N < N)%nat) by (apply Nat.mod_upper_bound; lia).
    assert (Hq : ((l + (N + 1) / 2) mod N < N)%nat) by (apply Nat.mod_upper_bound; lia).
    rewrite (entry_mat_map (option_map Cabs) _ N N j l (Some C0))
      by auto using shape_fftshift.
    rewrite (entry_fftshift _ N N) by assumption.
    transitivity (entry (Some C0) D ((j + (N + 1) / 2) mod N) ((l + (N + 1) / 2) mod N)
                  = None).
    { destruct (entry (Some C0) D _ _); simpl; split; intros H;
        try reflexivity; discriminate. }
    rewrite (He _ _ Hp Hq). split.
    + intros [a [b [Ha [Hb H]]]]. exists a, b. split; [assumption|].
      split; [assumption|]. unfold A in H.
      rewrite (entry_mat_zip _ xy M N N a b C0 (Some C0)) in H by assumption.
      now apply omul_some_none in H.
    + intros [a [b [Ha [Hb H]]]]. exists a, b. split; [assumption|].
      split; [assumption|]. unfold A.
      rewrite (entry_mat_zip _ xy M N N a b C0 (Some C0)) by assumption.
      now apply omul_some_none.
Qed.

(** ** The outcomes of a call *)

Section RuntimeOutcome.

Variables (k u v : R) (npx nholes : Z) (R0 d : R).

Lemma rt_pindr_zero_wavenumber :
  k = 0 -> Runtime.pindr k u v npx nholes R0 d = Raise ZeroDivisionError.
Proof. intros ->. unfold Runtime.pindr. now rewrite py_div_int_zero. Qed.

Lemma rt_pindr_large_wavenumber :
  Runtime.exceeds_floats k ->
  Runtime.pindr k u v npx nholes R0 d = Raise OverflowError.
Proof. intros H. unfold Runtime.pindr. now rewrite py_div_int_overflow. Qed.

Lemma rt_pindr_negative_size :
  k <> 0 -> ~ Runtime.exceeds_floats k -> (npx < 0)%Z ->
  Runtime.pindr k u v npx nholes R0 d = Raise ValueError.
Proof.
  intros Hk Hf Hn. unfold Runtime.pindr. rewrite py_div_int_ok by assumption.
  cbn [bind]. unfold pindr_n.
  now replace (npx + 1 - 1 <? 0)%Z with true by (symmetry; apply Z.ltb_lt; lia).
Qed.

Lemma rt_pindr_unfold :
  k <> 0 -> ~ Runtime.exceeds_floats k -> (0 <= npx)%Z ->
  Runtime.pindr k u v npx nholes R0 d
  = (M <- Runtime.for_holes k npx nholes R0 d (2 * PI / k)
            (mat_map Some (zeros (Z.to_nat npx) (Z.to_nat npx))) (range nholes) ;;
     Runtime.image_of_mask u v npx M).
Proof.
  intros Hk Hf Hn. unfold Runtime.pindr. rewrite py_div_int_ok by assumption.
  cbn [bind]. unfold pindr_n.
  replace (npx + 1 - 1 <? 0)%Z with false by (symmetry; apply Z.ltb_ge; lia).
  now replace (npx + 1 - 1)%Z with npx by lia.
Qed.

Lemma rt_pindr_overflow :
  k <> 0 -> ~ Runtime.exceeds_floats k -> (0 <= npx)%Z -> (1 <= nholes)%Z ->
  Runtime.exceeds_floats (d * d) ->
  Runtime.pindr k u v npx nholes R0 d = Raise OverflowError.
Proof.
  intros Hk Hf Hn Hh Hd. rewrite rt_pindr_unfold by assumption.
  now rewrite rt_loop_overflow.
Qed.

Lemma rt_pindr_empty :
  k <> 0 -> ~ Runtime.exceeds_floats k -> npx = 0%Z ->
  (nholes <= 0)%Z \/ ~ Runtime.exceeds_floats (d * d) ->
  Runtime.pindr k u v npx nholes R0 d = Raise ValueError.
Proof.
  intros Hk Hf Hn Hcase. rewrite rt_pindr_unfold by (try assumption; lia).
  destruct (rt_loop k npx nholes R0 d (2 * PI / k)) as [M [-> [HM _]]];
    [now apply wavelength_nonzero | assumption |].
  cbn [bind]. subst npx. now apply rt_image_of_mask_empty.
Qed.

(** A call that returns: the grid has the shape [npx] by [npx], and its
    entries are all numbers, or none is: none is exactly when a divisor of
    the array division was 0 at some grid point in some pass of the
    loop. *)
Lemma rt_pindr_returns :
  k <> 0 -> ~ Runtime.exceeds_floats k -> (1 <= npx)%Z ->
  (nholes <= 0)%Z \/ ~ Runtime.exceeds_floats (d * d) ->
  let N := Z.to_nat npx in
  exists g,
    Runtime.pindr k u v npx nholes R0 d = Ok g
    /\ shape g N N
    /\ forall j l, (j < N)%nat -> (l < N)%nat ->
         (nan_at g j l
          <-> exists a b i, (a < N)%nat /\ (b < N)%nat /\ (0 <= i < nholes)%Z
                            /\ Runtime.ri_at npx nholes R0 d i a b = 0).
Proof.
  intros Hk Hf Hn Hcase N. rewrite rt_pindr_unfold by (try assumption; lia).
  destruct (rt_loop k npx nholes R0 d (2 * PI / k)) as [M [-> [HM HeM]]];
    [now apply wavelength_nonzero | assumption |].
  cbn [bind].
  destruct (rt_image_of_mask u v npx M Hn HM) as [g [Hg [Hs He]]].
  exists g. split; [exact Hg|]. split; [exact Hs|].
  intros j l Hj Hl. rewrite (He j l Hj Hl). split.
  - intros [a [b [Ha [Hb H]]]]. apply (HeM a b Ha Hb) in H.
    destruct H as [i [Hi H]]. exists a, b, i. auto.
  - intros [a [b [i [Ha [Hb [Hi H]]]]]]. exists a, b. split; [assumption|].
    split; [assumption|]. apply (HeM a b Ha Hb). exists i. auto.
Qed.

(** Whatever the arguments, the entries of a returned grid that are
    numbers are not negative. *)
Lemma rt_pindr_nan_or_nonneg :
  when_returned (Runtime.pindr k u v npx nholes R0 d) (every_entry nan_or_nonneg).
Proof.
  unfold Runtime.pindr.
  destruct (Runtime.py_div_int (2 * PI) k) as [lam|e]; simpl; [|exact Logic.I].
  destruct (pindr_n npx - 1 <? 0)%Z; simpl; [exact Logic.I|].
  destruct (Runtime.for_holes _ _ _ _ _ _ _ _) as [M|e]; simpl; [|exact Logic.I].
  unfold Runtime.image_of_mask.
  destruct (Runtime.fft2 _) as [D|e]; simpl; [|exact Logic.I].
  apply every_entry_abs.
Qed.

End RuntimeOutcome.

(** ** Agreement of the two embeddings

    Where every divisor of the array division is a number other than 0 and
    no square is rounded to 0, [Runtime.pindr] returns the grid of [pindr],
    every entry a number. *)

Lemma zip_with_maps {A A' B B' D D' : Type}
      (f : A' -> B' -> D') (f' : A -> B -> D)
      (g : A -> A') (h : B -> B') (j : D -> D') l l' :
  (forall a b, f (g a) (h b) = j (f' a b)) ->
  zip_with f (map g l) (map h l') = map j (zip_with f' l l').
Proof.
  intros H. revert l'. induction l as [|a t IH]; intros [|b t']; simpl; auto.
  now rewrite H, IH.
Qed.

Lemma mat_zip_maps {A A' B B' D D' : Type}
      (f : A' -> B' -> D') (f' : A -> B -> D)
      (g : A -> A') (h : B -> B') (j : D -> D') M M' :
  (forall a b, f (g a) (h b) = j (f' a b)) ->
  mat_zip f (mat_map g M) (mat_map h M') = mat_map j (mat_zip f' M M').
Proof.
  intros H. unfold mat_zip, mat_map. apply zip_with_maps.
  intros a b. now apply zip_with_maps.
Qed.

Lemma zip_with_map_r {A B B' D D' : Type}
      (f : A -> B' -> D') (f' : A -> B -> D) (h : B -> B') (j : D -> D') l l' :
  (forall a b, f a (h b) = j (f' a b)) ->
  zip_with f l (map h l') = map j (zip_with f' l l').
Proof.
  intros H. revert l'. induction l as [|a t IH]; intros [|b t']; simpl; auto.
  now rewrite H, IH.
Qed.

Lemma mat_zip_map_r {A B B' D D' : Type}
      (f : A -> B' -> D') (f' : A -> B -> D) (h : B -> B') (j : D -> D') M M' :
  (forall a b, f a (h b) = j (f' a b)) ->
  mat_zip f M (mat_map h M') = mat_map j (mat_zip f' M M').
Proof.
  intros H. unfold mat_zip, mat_map. apply zip_with_map_r.
  intros a b. now apply zip_with_map_r.
Qed.

Lemma zip_divide (num : R -> C) row :
  Forall (fun r => r <> 0) row ->
  zip_with Runtime.np_divide (map num row) row
  = map Some (zip_with Cdiv (map num row) (map RtoC row)).
Proof.
  induction 1 as [|r t Hr Ht IH]; simpl; [reflexivity|].
  rewrite IH. unfold Runtime.np_divide at 1.
  now destruct (Req_dec_T r 0).
Qed.

Lemma mat_divide (num : R -> C) ri :
  every_entry (fun r => r <> 0) ri ->
  mat_zip Runtime.np_divide (mat_map num ri) ri
  = mat_map Some (mat_zip Cdiv (mat_map num ri) (mat_map RtoC ri)).
Proof.
  unfold every_entry, mat_zip, mat_map.
  induction 1 as [|row t Hrow Ht IH]; simpl; [reflexivity|].
  now rewrite IH, zip_divide.
Qed.

Lemma shift1_map {A B : Type} (f : A -> B) l : shift1 (map f l) = map f (shift1 l).
Proof.
  unfold shift1. now rewrite length_map, skipn_map, firstn_map, map_app.
Qed.

Lemma fftshift_mat_map {A B : Type} (f : A -> B) M :
  fftshift (mat_map f M) = mat_map f (fftshift M).
Proof.
  unfold fftshift, mat_map. rewrite <- shift1_map, !map_map.
  f_equal. apply map_ext. intros row. apply shift1_map.
Qed.

Lemma Osum_n_some f g n :
  (forall i, f i = Some (g i)) -> Runtime.Osum_n f n = Some (Csum_n g n).
Proof.
  intros H. induction n as [|n IH]; simpl; [reflexivity|]. now rewrite IH, H.
Qed.

Lemma oat2_some A a b : Runtime.oat2 (mat_map Some A) a b = Some (at2 A a b).
Proof.
  unfold Runtime.oat2, at2, mat_map.
  change (@nil (option C)) with (map (@Some C) []).
  now rewrite !map_nth.
Qed.

Lemma rt_fft2_some A N :
  (0 < N)%nat -> shape A N N ->
  Runtime.fft2 (mat_map Some A) = Ok (mat_map Some (fft2 A)).
Proof.
  intros HN HA. pose proof (shape_hd A N HA) as Hhd. pose proof HA as [Hl _].
  assert (HA' : shape (mat_map (@Some C) A) N N) by now apply shape_mat_map.
  pose proof (shape_hd _ N HA') as Hhd'. pose proof HA' as [Hl' _].
  unfold Runtime.fft2, fft2. rewrite Hhd', Hl', Hhd, Hl.
  replace (Nat.eqb N 0) with false by (symmetry; apply Nat.eqb_neq; lia).
  simpl orb. cbv iota. apply f_equal.
  unfold mat_map. rewrite map_map. apply map_ext. intros p.
  rewrite map_map. apply map_ext. intros q.
  apply Osum_n_some. intros a. apply Osum_n_some. intros b.
  fold (mat_map (@Some C) A). now rewrite oat2_some.
Qed.

Lemma rt_image_of_mask_some u v npx M :
  (1 <= npx)%Z -> shape M (Z.to_nat npx) (Z.to_nat npx) ->
  Runtime.image_of_mask u v npx (mat_map Some M)
  = Ok (mat_map Some (image_of_mask u v npx M)).
Proof.
  intros Hnpx HM. unfold Runtime.image_of_mask, image_of_mask.
  set (xy := outer _ _ _).
  assert (Hxy : shape xy (Z.to_nat npx) (Z.to_nat npx)) by apply shape_grid_outer.
  rewrite (mat_zip_map_r (fun z m => Runtime.omul (Some z) m) Cmul Some Some xy M)
    by reflexivity.
  rewrite (rt_fft2_some _ (Z.to_nat npx)) by (try apply shape_mat_zip; auto; lia).
  cbn [bind]. f_equal. rewrite fftshift_mat_map.
  unfold mat_map. rewrite !map_map. apply map_ext. intros row.
  rewrite !map_map. reflexivity.
Qed.

Section Agreement.

Variables (k : R) (npx nholes : Z) (R0 d : R).

Hypothesis Hd : Runtime.float_tiny < d * d.
Hypothesis Hsq : squares_exact nholes R0.

Lemma fsq_exact : Runtime.fsq d = d ^ 2.
Proof.
  unfold Runtime.fsq. destruct (Rle_dec _ _); [lra | ring].
Qed.

Lemma rt_hole_term_agrees lam i :
  Runtime.hole_term k npx nholes R0 d lam i
  = mat_map Some (hole_term k npx nholes R0 d lam i).
Proof.
  unfold Runtime.hole_term, hole_term.
  set (t := IZR i * 2 * PI / IZR nholes).
  assert (Hri : outer (fun X Y => sqrt (Runtime.fsq (IZR X - R0 * cos t)
                                        + Runtime.fsq (IZR Y - R0 * sin t)
                                        + Runtime.fsq d))
                      (pindr_x npx) (pindr_y npx)
                = outer (fun X Y => sqrt ((IZR X - R0 * cos t) ^ 2
                                          + (IZR Y - R0 * sin t) ^ 2 + d ^ 2))
                        (pindr_x npx) (pindr_y npx)).
  { unfold outer. apply map_ext. intros X. apply map_ext. intros Y.
    destruct (Hsq X i) as [HX _]. destruct (Hsq Y i) as [_ HY].
    fold t in HX, HY. now rewrite HX, HY, fsq_exact. }
  rewrite Hri. apply mat_divide.
  unfold every_entry, outer. apply Forall_forall. intros row Hrow.
  apply in_map_iff in Hrow. destruct Hrow as [X [<- _]].
  apply Forall_forall. intros r Hr.
  apply in_map_iff in Hr. destruct Hr as [Y [<- _]].
  apply Rgt_not_eq. apply sqrt_lt_R0.
  pose proof float_tiny_pos.
  pose proof (pow2_ge_0 (IZR X - R0 * cos t)).
  pose proof (pow2_ge_0 (IZR Y - R0 * sin t)).
  replace (d ^ 2) with (d * d) by ring. lra.
Qed.

Lemma rt_for_holes_agrees lam idx M :
  IZR nholes <> 0 -> lam <> 0 -> ~ Runtime.exceeds_floats (d * d) ->
  Runtime.for_holes k npx nholes R0 d lam (mat_map Some M) idx
  = Ok (mat_map Some
          (fold_left (fun M' i => mat_zip Cadd M' (hole_term k npx nholes R0 d lam i))
                     idx M)).
Proof.
  intros Hn Hlam Hf. revert M. induction idx as [|i rest IH]; intros M.
  - reflexivity.
  - cbn [Runtime.for_holes fold_left]. rewrite rt_hole_ok by assumption.
    cbn [bind]. rewrite rt_hole_term_agrees.
    rewrite (mat_zip_maps Runtime.oadd Cadd Some Some Some) by reflexivity.
    apply IH.
Qed.

End Agreement.

Lemma squares_exact_origin nholes : squares_exact nholes 0.
Proof.
  intros X i t.
  assert (H : Runtime.fsq (IZR X) = IZR X ^ 2).
  { unfold Runtime.fsq. destruct (Rle_dec _ _) as [Hle|Hgt]; [|ring].
    destruct (Z.eq_dec X 0) as [->|HX]; [simpl; ring|].
    exfalso. assert (H1 : 1 <= IZR X * IZR X).
    { rewrite <- mult_IZR. apply IZR_le. nia. }
    unfold Runtime.float_tiny in Hle.
    assert (H2 : / 2 ^ 1075 < 1) by lra. lra. }
  split.
  - replace (IZR X - 0 * cos t) with (IZR X) by ring. exact H.
  - replace (IZR X - 0 * sin t) with (IZR X) by ring. exact H.
Qed.

(** For a screen distance whose square is neither rounded to 0 nor too
    large, and coordinate differences whose squares are exact, the two
    embeddings return the same grid. *)
Lemma runtime_agrees k u v npx nholes R0 d :
  k <> 0 -> ~ Runtime.exceeds_floats k -> (1 <= npx)%Z ->
  ~ Runtime.exceeds_floats (d * d) -> Runtime.float_tiny < d * d ->
  squares_exact nholes R0 ->
  exists g,
    pindr k u v npx nholes R0 d = Ok g
    /\ Runtime.pindr k u v npx nholes R0 d = Ok (mat_map Some g).
Proof.
  intros Hk Hf Hnpx Hdf Hd Hsq.
  assert (Hlam : 2 * PI / k <> 0) by now apply wavelength_nonzero.
  rewrite rt_pindr_unfold by (try assumption; lia).
  unfold pindr. rewrite py_div_ok by assumption. cbn [bind]. unfold pindr_n.
  replace (npx + 1 - 1 <? 0)%Z with false by (symmetry; apply Z.ltb_ge; lia).
  replace (npx + 1 - 1)%Z with npx by lia.
  set (N := Z.to_nat npx).
  destruct (Z_le_gt_dec nholes 0) as [Hle|Hgt].
  - rewrite range_empty by assumption. cbn [for_holes Runtime.for_holes bind].
    eexists. split; [reflexivity|].
    apply rt_image_of_mask_some; [assumption | apply shape_zeros].
  - assert (Hn : IZR nholes <> 0) by (apply not_0_IZR; lia).
    rewrite for_holes_fold by assumption.
    rewrite (rt_for_holes_agrees k npx nholes R0 d Hd Hsq) by assumption.
    cbn [bind]. eexists. split; [reflexivity|].
    apply rt_image_of_mask_some; [assumption|].
    unfold range, arange. rewrite Z.sub_0_r.
    destruct (fold_holes_entries k npx nholes R0 d (zeros N N) (Z.to_nat nholes)
                (shape_zeros N N)) as [Hs _].
    exact Hs.
Qed.

(** ** The divisor of the array division *)

Lemma rt_ri_at_pos npx nholes R0 d i a b :
  Runtime.float_tiny < d * d -> 0 < Runtime.ri_at npx nholes R0 d i a b.
Proof.
  intros Hd. unfold Runtime.ri_at. apply sqrt_lt_R0.
  pose proof (fsq_pos d Hd).
  pose proof (fsq_nonneg (IZR (coord_x npx a)
                          - R0 * cos (IZR i * 2 * PI / IZR nholes))).
  pose proof (fsq_nonneg (IZR (coord_y npx b)
                          - R0 * sin (IZR i * 2 * PI / IZR nholes))).
  lra.
Qed.

Lemma centre_pixel npx :
  (1 <= npx)%Z ->
  let c := Z.to_nat ((npx + 1) / 2 - 1) in
  (c < Z.to_nat npx)%nat /\ coord_x npx c = 0%Z /\ coord_y npx c = 0%Z.
Proof.
  intros Hnpx c.
  assert (H1 : (1 <= (npx + 1) / 2)%Z) by (apply Z.div_le_lower_bound; lia).
  assert (H2 : ((npx + 1) / 2 <= npx)%Z) by (apply Z.div_le_upper_bound; lia).
  unfold c, coord_x, coord_y. repeat split; lia.
Qed.

(** With all pinholes at the origin and the screen distance 0, the divisor
    is 0 at the grid point of the origin. *)
Lemma rt_ri_at_origin npx nholes i :
  (1 <= npx)%Z ->
  let c := Z.to_nat ((npx + 1) / 2 - 1) in
  Runtime.ri_at npx nholes 0 0 i c c = 0.
Proof.
  intros Hnpx c. destruct (centre_pixel npx Hnpx) as [_ [Hx Hy]].
  fold c in Hx, Hy. unfold Runtime.ri_at. rewrite Hx, Hy.
  replace (0 - 0 * cos (IZR i * 2 * PI / IZR nholes)) with 0 by ring.
  replace (0 - 0 * sin (IZR i * 2 * PI / IZR nholes)) with 0 by ring.
  rewrite fsq_0. replace (0 + 0 + 0) with 0 by ring. apply sqrt_0.
Qed.

(** * The claims about exceptions and values that are not numbers *)

(** C6, amended: every entry of a grid returned by [pindr] that is a number
    is greater than or equal to 0, being the magnitude of a complex number;
    and for [npx >= 1], a wavenumber other than 0 and arguments far from
    the ends of the range of the floats, the screen distance not 0 among
    them, [pindr] returns a grid whose entries are all numbers greater than
    or equal to 0. *)
Theorem pindr_output_nan_or_nonneg k u v npx nholes R0 d :
  when_returned (Runtime.pindr k u v npx nholes R0 d) (every_entry nan_or_nonneg)
  /\ (k <> 0 -> moderate k -> moderate u -> moderate v -> moderate R0 ->
      moderate d -> not_tiny d -> (1 <= npx)%Z ->
      exists g, Runtime.pindr k u v npx nholes R0 d = Ok g
                /\ shape g (Z.to_nat npx) (Z.to_nat npx)
                /\ every_entry finite_nonneg g).
Proof.
  pose proof (rt_pindr_nan_or_nonneg k u v npx nholes R0 d) as Hall.
  split; [exact Hall|].
  intros Hk Hmk _ _ _ Hmd Htd Hnpx.
  destruct (rt_pindr_returns k u v npx nholes R0 d) as [g [Hg [Hs He]]];
    [assumption | now apply moderate_in_floats | assumption
     | right; now apply moderate_square_in_floats |].
  exists g. split; [exact Hg|]. split; [exact Hs|].
  rewrite Hg in Hall. simpl in Hall.
  apply (every_entry_intro _ g _ _ (Some 0) Hs). intros a b Ha Hb.
  pose proof (every_entry_elim _ g _ _ (Some 0) a b Hs Hall Ha Hb) as Hab.
  destruct (entry (Some 0) g a b) as [r|] eqn:Hr; [exact Hab|].
  apply (He a b Ha Hb) in Hr. destruct Hr as [a' [b' [i [_ [_ [_ H0]]]]]].
  pose proof (rt_ri_at_pos npx nholes R0 d i a' b' (not_tiny_square d Htd)). lra.
Qed.

Lemma moderate_350 : moderate 350.
Proof. unfold moderate. rewrite Rabs_pos_eq by lra. lra. Qed.

Lemma moderate_1 : moderate 1.
Proof. unfold moderate. rewrite Rabs_pos_eq by lra. lra. Qed.

Lemma moderate_2 : moderate 2.
Proof. unfold moderate. rewrite Rabs_pos_eq by lra. lra. Qed.

Lemma moderate_tenth : moderate (1 / 10).
Proof. unfold moderate. rewrite Rabs_pos_eq by lra. lra. Qed.

Lemma not_tiny_tenth : not_tiny (1 / 10).
Proof. unfold not_tiny. rewrite Rabs_pos_eq by lra. lra. Qed.

Lemma pindr_output_nan_or_nonneg_witness :
  (350 <> 0 /\ moderate 350 /\ moderate 1 /\ moderate 2 /\ moderate (1 / 10)
   /\ not_tiny (1 / 10) /\ (1 <= 600)%Z) /\
  exists g, Runtime.pindr 350 1 1 600 8 2 (1 / 10) = Ok g
            /\ shape g (Z.to_nat 600) (Z.to_nat 600)
            /\ every_entry finite_nonneg g.
Proof.
  split.
  - split; [lra|]. split; [apply moderate_350|]. split; [apply moderate_1|].
    split; [apply moderate_2|]. split; [apply moderate_tenth|].
    split; [apply not_tiny_tenth | lia].
  - apply (proj2 (pindr_output_nan_or_nonneg 350 1 1 600 8 2 (1 / 10)));
      try lra; try lia;
      auto using moderate_350, moderate_1, moderate_2, moderate_tenth,
                 not_tiny_tenth.
Defined.

(** C6 as stated fails: with the screen distance 0 and the other arguments
    at their defaults, the pinhole of the first pass of the loop is at the
    grid point (2, 0), of the indices (301, 299); the divisor there is 0,
    the call returns, and no entry of the returned grid is a number. *)
Lemma pindr_zero_distance_not_a_number :
  exists g,
    Runtime.pindr 350 1 1 600 8 2 0 = Ok g
    /\ shape g (Z.to_nat 600) (Z.to_nat 600)
    /\ Runtime.ri_at 600 8 2 0 0 301 299 = 0
    /\ (forall j l, (j < Z.to_nat 600)%nat -> (l < Z.to_nat 600)%nat -> nan_at g j l)
    /\ ~ every_entry finite_nonneg g.
Proof.
  assert (Hri : Runtime.ri_at 600 8 2 0 0 301 299 = 0).
  { unfold Runtime.ri_at.
    assert (Hx : coord_x 600 301 = 2%Z) by reflexivity.
    assert (Hy : coord_y 600 299 = 0%Z) by reflexivity.
    rewrite Hx, Hy.
    replace (0 * 2 * PI / 8) with 0 by field.
    rewrite cos_0, sin_0.
    replace (2 - 2 * 1) with 0 by ring. replace (0 - 2 * 0) with 0 by ring.
    rewrite fsq_0. replace (0 + 0 + 0) with 0 by ring. apply sqrt_0. }
  destruct (rt_pindr_returns 350 1 1 600 8 2 0) as [g [Hg [Hs He]]].
  { lra. }
  { apply moderate_in_floats, moderate_350. }
  { lia. }
  { right. replace (0 * 0) with 0 by ring. apply zero_in_floats. }
  assert (Hnan : forall j l, (j < Z.to_nat 600)%nat -> (l < Z.to_nat 600)%nat ->
                             nan_at g j l).
  { intros j l Hj Hl. apply (He j l Hj Hl).
    exists 301%nat, 299%nat, 0%Z. repeat split; try lia. exact Hri. }
  exists g. split; [exact Hg|]. split; [exact Hs|]. split; [exact Hri|].
  split; [exact Hnan|].
  intros Hall.
  assert (H0 : (0 < Z.to_nat 600)%nat) by lia.
  pose proof (every_entry_elim _ g _ _ (Some 0) 0 0 Hs Hall H0 H0) as H.
  rewrite (Hnan 0%nat 0%nat H0 H0) in H. exact H.
Qed.

(** C8, amended: for [npx >= 1] and [nholes >= 1], [pindr] raises
    [ZeroDivisionError] for the wavenumber 0, and [OverflowError] for an int
    wavenumber too large for a float and for a screen distance whose square
    is not a finite float; for every other input it raises no exception and
    returns a grid.  A zero divisor of the array division does not raise:
    with [d = 0] and [R = 0] the call returns a grid of which no entry is a
    number. *)
Theorem pindr_raises_or_returns k u v npx nholes R0 d :
  (1 <= npx)%Z -> (1 <= nholes)%Z ->
  (k = 0 -> Runtime.pindr k u v npx nholes R0 d = Raise ZeroDivisionError)
  /\ (Runtime.exceeds_floats k ->
      Runtime.pindr k u v npx nholes R0 d = Raise OverflowError)
  /\ (k <> 0 -> ~ Runtime.exceeds_floats k -> Runtime.exceeds_floats (d * d) ->
      Runtime.pindr k u v npx nholes R0 d = Raise OverflowError)
  /\ (k <> 0 -> ~ Runtime.exceeds_floats k -> ~ Runtime.exceeds_floats (d * d) ->
      exists g, Runtime.pindr k u v npx nholes R0 d = Ok g
                /\ shape g (Z.to_nat npx) (Z.to_nat npx))
  /\ (k <> 0 -> ~ Runtime.exceeds_floats k -> d = 0 -> R0 = 0 ->
      exists g, Runtime.pindr k u v npx nholes R0 d = Ok g
                /\ forall j l, (j < Z.to_nat npx)%nat -> (l < Z.to_nat npx)%nat ->
                     nan_at g j l).
Proof.
  intros Hnpx Hnholes.
  split; [apply rt_pindr_zero_wavenumber|].
  split; [apply rt_pindr_large_wavenumber|].
  split; [intros Hk Hf Hd; apply rt_pindr_overflow; auto; lia|].
  split.
  - intros Hk Hf Hd.
    destruct (rt_pindr_returns k u v npx nholes R0 d) as [g [Hg [Hs _]]]; auto.
    exists g. auto.
  - intros Hk Hf -> ->.
    destruct (rt_pindr_returns k u v npx nholes 0 0) as [g [Hg [_ He]]]; auto.
    { right. replace (0 * 0) with 0 by ring. apply zero_in_floats. }
    exists g. split; [exact Hg|].
    intros j l Hj Hl. apply (He j l Hj Hl).
    destruct (centre_pixel npx Hnpx) as [Hc _].
    exists (Z.to_nat ((npx + 1) / 2 - 1)), (Z.to_nat ((npx + 1) / 2 - 1)), 0%Z.
    split; [exact Hc|]. split; [exact Hc|]. split; [lia|].
    now apply rt_ri_at_origin.
Qed.

Lemma pindr_raises_or_returns_witness :
  ((1 <= 600)%Z /\ (1 <= 8)%Z /\ 350 <> 0 /\ ~ Runtime.exceeds_floats 350
   /\ ~ Runtime.exceeds_floats (0 * 0)) /\
  (exists g, Runtime.pindr 350 1 1 600 8 2 0 = Ok g
             /\ shape g (Z.to_nat 600) (Z.to_nat 600))
  /\ Runtime.pindr 0 1 1 600 8 2 0 = Raise ZeroDivisionError.
Proof.
  assert (H350 : ~ Runtime.exceeds_floats 350)
    by apply moderate_in_floats, moderate_350.
  assert (H0 : ~ Runtime.exceeds_floats (0 * 0))
    by (replace (0 * 0) with 0 by ring; apply zero_in_floats).
  split; [|split].
  - repeat split; try lia; try assumption. lra.
  - apply (pindr_raises_or_returns 350 1 1 600 8 2 0); try lia; try assumption.
    lra.
  - apply (pindr_raises_or_returns 0 1 1 600 8 2 0); try lia. reflexivity.
Defined.

(** ** The divisor and the screen distance *)

(** In the pass of the loop in which [d**2] has the value [d2] and the
    angle of the pinhole is [t], every divisor [ri] is greater than 0 when
    the square of [d] is above the smallest float; when the square of [d]
    is rounded to 0, as for [d = 0] and for [d = 1e-200], the divisor is 0
    at a grid point of integer coordinates [(z, 0)] under the pinhole of
    the first pass. *)
Theorem ri_zero_when_distance_underflows npx R0 d t d2 :
  Runtime.py_pow2 d = Ok d2 ->
  (Runtime.float_tiny < d * d ->
   every_entry (fun r => 0 < r) (Runtime.ri_array npx R0 d2 t))
  /\ (d * d <= Runtime.float_tiny ->
      forall z : Z,
        (1 <= z + (npx + 1) / 2 <= npx)%Z -> (1 <= npx)%Z ->
        R0 = IZR z -> t = 0 ->
        rat2 (Runtime.ri_array npx R0 d2 t)
             (Z.to_nat (z + (npx + 1) / 2 - 1)) (Z.to_nat ((npx + 1) / 2 - 1)) = 0).
Proof.
  intros Hpow.
  assert (Hd2 : d2 = Runtime.fsq d).
  { unfold Runtime.py_pow2 in Hpow.
    destruct (Runtime.exceeds_floats_dec (d * d)); congruence. }
  subst d2. split.
  - intros Hd. unfold every_entry, Runtime.ri_array, outer.
    apply Forall_forall. intros row Hrow.
    apply in_map_iff in Hrow. destruct Hrow as [X [<- _]].
    apply Forall_forall. intros r Hr.
    apply in_map_iff in Hr. destruct Hr as [Y [<- _]].
    apply sqrt_lt_R0.
    pose proof (fsq_pos d Hd).
    pose proof (fsq_nonneg (IZR X - R0 * cos t)).
    pose proof (fsq_nonneg (IZR Y - R0 * sin t)). lra.
  - intros Hd z Hz Hnpx -> ->.
    destruct (centre_pixel npx Hnpx) as [Hc [_ Hy]].
    assert (Hx : coord_x npx (Z.to_nat (z + (npx + 1) / 2 - 1)) = z)
      by (unfold coord_x; lia).
    rewrite rat2_entry. unfold Runtime.ri_array.
    rewrite (entry_outer _ _ _ _ _ 0%Z 0%Z)
      by (rewrite ?length_pindr_x, ?length_pindr_y; lia).
    rewrite nth_pindr_x, nth_pindr_y by lia.
    rewrite Hx, Hy, cos_0, sin_0.
    replace (IZR z - IZR z * 1) with 0 by ring.
    replace (0 - IZR z * 0) with 0 by ring.
    rewrite fsq_0, (fsq_underflow d Hd).
    replace (0 + 0 + 0) with 0 by ring. apply sqrt_0.
Qed.

Lemma ri_zero_when_distance_underflows_witness :
  (Runtime.py_pow2 0 = Ok 0 /\ 0 * 0 <= Runtime.float_tiny
   /\ (1 <= 2 + (600 + 1) / 2 <= 600)%Z /\ (1 <= 600)%Z) /\
  rat2 (Runtime.ri_array 600 (IZR 2) 0 0)
       (Z.to_nat (2 + (600 + 1) / 2 - 1)) (Z.to_nat ((600 + 1) / 2 - 1)) = 0.
Proof.
  assert (H : Runtime.py_pow2 0 = Ok 0).
  { rewrite py_pow2_ok.
    - now rewrite fsq_0.
    - replace (0 * 0) with 0 by ring. apply zero_in_floats. }
  assert (H0 : 0 * 0 <= Runtime.float_tiny).
  { pose proof float_tiny_pos. lra. }
  assert (Hz : (1 <= 2 + (600 + 1) / 2 <= 600)%Z).
  { change ((600 + 1) / 2)%Z with 300%Z. lia. }
  split.
  - repeat split; try assumption; try lia; apply Hz.
  - apply (proj2 (ri_zero_when_distance_underflows 600 (IZR 2) 0 0 0 H) H0 2%Z);
      try assumption; try lia; reflexivity.
Defined.

(** The pass of the loop in terms of [ri_array]. *)
Lemma rt_hole_ri_array k npx nholes R0 d lam M i t d2 c :
  py_div (IZR i * 2 * PI) (IZR nholes) = Ok t ->
  Runtime.py_pow2 d = Ok d2 ->
  py_cdiv (Copp Ci) (RtoC lam) = Ok c ->
  Runtime.hole k npx nholes R0 d lam M i
  = Ok (mat_zip Runtime.oadd M
          (mat_zip Runtime.np_divide
             (mat_map (fun r => Cmul c (Cexp (Cmul (Cmul Ci (RtoC k)) (RtoC r))))
                      (Runtime.ri_array npx R0 d2 t))
             (Runtime.ri_array npx R0 d2 t))).
Proof.
  intros Ht Hd Hc. unfold Runtime.hole. rewrite Ht. cbn [bind].
  rewrite Hd. cbn [bind]. rewrite Hc. reflexivity.
Qed.

(** ** Exceptions *)

Ltac outcome :=
  repeat split; intros;
  repeat match goal with
         | H : exists _, _ |- _ => destruct H
         | H : _ /\ _ |- _ => destruct H
         | H : _ \/ _ |- _ => destruct H
         end;
  try discriminate; try contradiction; try lia;
  try (eexists; reflexivity);
  intuition (try lia; try discriminate).

(** The outcome of a call in terms of its arguments.  [ZeroDivisionError]
    is raised exactly for the wavenumber 0; [OverflowError] exactly for an
    int wavenumber too large for a float, and for a square of the screen
    distance that is not a finite float when the loop has a pass;
    [ValueError] exactly for a negative [npx], and for [npx = 0] when the
    loop raises nothing; and a grid is returned in every other case. *)
Theorem pindr_outcomes k u v npx nholes R0 d :
  let r := Runtime.pindr k u v npx nholes R0 d in
  (r = Raise ZeroDivisionError <-> k = 0)
  /\ (r = Raise OverflowError
      <-> Runtime.exceeds_floats k
          \/ (k <> 0 /\ (0 <= npx)%Z /\ (1 <= nholes)%Z
              /\ Runtime.exceeds_floats (d * d)))
  /\ (r = Raise ValueError
      <-> k <> 0 /\ ~ Runtime.exceeds_floats k
          /\ ((npx < 0)%Z
              \/ (npx = 0%Z
                  /\ ((nholes <= 0)%Z \/ ~ Runtime.exceeds_floats (d * d)))))
  /\ ((exists g, r = Ok g)
      <-> k <> 0 /\ ~ Runtime.exceeds_floats k /\ (1 <= npx)%Z
          /\ ((nholes <= 0)%Z \/ ~ Runtime.exceeds_floats (d * d))).
Proof.
  intros r. unfold r. clear r.
  pose proof zero_in_floats as H0.
  destruct (Req_dec_T k 0) as [Hk|Hk].
  { rewrite rt_pindr_zero_wavenumber by assumption. subst k. outcome. }
  destruct (Runtime.exceeds_floats_dec k) as [Hf|Hf].
  { rewrite rt_pindr_large_wavenumber by assumption. outcome. }
  destruct (Z_lt_le_dec npx 0) as [Hneg|Hnpx].
  { rewrite rt_pindr_negative_size by assumption. outcome. }
  destruct (Z_le_gt_dec 1 nholes) as [Hh|Hh];
    [destruct (Runtime.exceeds_floats_dec (d * d)) as [Hd|Hd]|].
  - rewrite rt_pindr_overflow by assumption. outcome.
  - destruct (Z.eq_dec npx 0) as [He|He].
    + rewrite rt_pindr_empty by auto. outcome.
    + destruct (rt_pindr_returns k u v npx nholes R0 d) as [g [-> _]];
        auto; try lia.
      outcome.
  - destruct (Z.eq_dec npx 0) as [He|He].
    + rewrite rt_pindr_empty by (auto; left; lia). outcome.
    + destruct (rt_pindr_returns k u v npx nholes R0 d) as [g [-> _]];
        auto; try lia.
      outcome.
Qed.
